(** * Information-theoretic utilities of [tensorflow_transform/beam/info_theory.py]

    A shallow embedding of the module in exact arithmetic.

    - Python numbers handed to the functions (ints and finite floats) are real
      numbers [R]; a Python [int] produced by [int(...)] or [range] is a [Z].
    - A [numpy.float64] is an extended real [xreal]: a finite real, one of the
      two infinities, or NaN, with the IEEE-754 rules for the special values
      and no rounding, overflow or underflow.  Signed zeros are identified.
    - [math.lgamma] is the logarithm of the absolute value of Euler's Gamma
      function, and raises [ValueError] at the poles 0, -1, -2, ...
    - Python's dynamic typing is kept where the code depends on it: a Python
      float divided by a Python float raises [ZeroDivisionError] when the
      divisor is zero, whereas a division that involves a [numpy.float64]
      never raises.

    The values computed are thus real numbers, which the doubles of the code
    approximate.  Which joint counts the generator yields, and whether a call
    returns or raises, is decided by truncations toward zero and by tests for
    a pole of [math.lgamma], and rounding of their operands can change the
    decision.  Statements of that kind are made under [exact_args]: the
    arguments are multiples of [2^-s], [s <= 50], with numerators of magnitude
    at most [2^50] (integral counts are the case [s = 0]).  Every sum and
    difference that the code forms on the way to a truncation or to an
    argument of [math.lgamma] is then a double-precision number
    ([exact_args_no_rounding]), so the code computes it exactly
    ([exact_args_rounding_invisible]), and [math.lgamma] is far from
    overflow. *)

From Stdlib Require Import Reals Lra Lia ZArith List Bool Sorted.
Import ListNotations.

Local Open Scope R_scope.

(** ** Values and outcomes *)

Inductive xreal : Type :=
| Fin (r : R)
| PInf
| MInf
| NaN.

Inductive exn : Type :=
| ZeroDivisionError
| ValueError.

Inductive result (A : Type) : Type :=
| Returns (a : A)
| Raises (e : exn).

Arguments Returns {A} a.
Arguments Raises {A} e.

Definition bind {A B : Type} (m : result A) (k : A -> result B) : result B :=
  match m with
  | Returns a => k a
  | Raises e => Raises e
  end.

Notation "x <- m ;; k" := (bind m (fun x => k))
  (at level 61, m at next level, right associativity).

(** A Python-level number, tagged with its run-time type. *)
Inductive pynum : Type :=
| PyInt (z : Z)
| PyFloat (r : R)
| NpFloat64 (v : xreal).

(** ** Arithmetic of [numpy.float64] without rounding *)

Definition xopp (a : xreal) : xreal :=
  match a with
  | Fin r => Fin (- r)
  | PInf => MInf
  | MInf => PInf
  | NaN => NaN
  end.

Definition xadd (a b : xreal) : xreal :=
  match a, b with
  | NaN, _ | _, NaN => NaN
  | Fin r, Fin s => Fin (r + s)
  | PInf, MInf | MInf, PInf => NaN
  | PInf, _ | _, PInf => PInf
  | MInf, _ | _, MInf => MInf
  end.

Definition xsub (a b : xreal) : xreal := xadd a (xopp b).

(** [inf_times pos r] is [(+inf) * r] when [pos], [(-inf) * r] otherwise. *)
Definition inf_times (pos : bool) (r : R) : xreal :=
  if Rlt_dec 0 r then (if pos then PInf else MInf)
  else if Rlt_dec r 0 then (if pos then MInf else PInf)
  else NaN.

Definition xmul (a b : xreal) : xreal :=
  match a, b with
  | NaN, _ | _, NaN => NaN
  | Fin r, Fin s => Fin (r * s)
  | PInf, Fin r | Fin r, PInf => inf_times true r
  | MInf, Fin r | Fin r, MInf => inf_times false r
  | PInf, PInf | MInf, MInf => PInf
  | PInf, MInf | MInf, PInf => MInf
  end.

(** True division of [numpy.float64]: a zero divisor gives an infinity or NaN
    (and a warning), never an exception. *)
Definition xdiv (a b : xreal) : xreal :=
  match a, b with
  | NaN, _ | _, NaN => NaN
  | Fin r, Fin s =>
      if Req_dec_T s 0 then inf_times true r else Fin (r / s)
  | Fin _, PInf | Fin _, MInf => Fin 0
  | PInf, Fin s => if Rlt_dec s 0 then MInf else PInf
  | MInf, Fin s => if Rlt_dec s 0 then PInf else MInf
  | _, _ => NaN
  end.

(** [np.log], [np.log2] and [np.exp].  The logarithms are only ever applied to
    finite Python numbers in this module. *)
Definition np_log (r : R) : xreal :=
  if Rlt_dec 0 r then Fin (ln r)
  else if Req_dec_T r 0 then MInf
  else NaN.

Definition log2 (r : R) : R := ln r / ln 2.

Definition np_log2 (r : R) : xreal :=
  if Rlt_dec 0 r then Fin (log2 r)
  else if Req_dec_T r 0 then MInf
  else NaN.

Definition np_exp (a : xreal) : xreal :=
  match a with
  | Fin r => Fin (exp r)
  | PInf => PInf
  | MInf => Fin 0
  | NaN => NaN
  end.

(** ** Python-level operations *)

Definition to_xreal (a : pynum) : xreal :=
  match a with
  | PyInt z => Fin (IZR z)
  | PyFloat r => Fin r
  | NpFloat64 v => v
  end.

(** [a += v] where [v] is a [numpy.float64]: the result is a [numpy.float64]
    whatever [a] was. *)
Definition py_iadd (a : pynum) (v : xreal) : pynum :=
  NpFloat64 (xadd (to_xreal a) v).

(** [a / b] under [from __future__ import division]. *)
Definition py_truediv (a b : pynum) : result pynum :=
  match a, b with
  | NpFloat64 _, _ | _, NpFloat64 _ =>
      Returns (NpFloat64 (xdiv (to_xreal a) (to_xreal b)))
  | PyInt p, PyInt q =>
      if Z.eq_dec q 0 then Raises ZeroDivisionError
      else Returns (PyFloat (IZR p / IZR q))
  | PyInt p, PyFloat s =>
      if Req_dec_T s 0 then Raises ZeroDivisionError
      else Returns (PyFloat (IZR p / s))
  | PyFloat r, PyInt q =>
      if Z.eq_dec q 0 then Raises ZeroDivisionError
      else Returns (PyFloat (r / IZR q))
  | PyFloat r, PyFloat s =>
      if Req_dec_T s 0 then Raises ZeroDivisionError
      else Returns (PyFloat (r / s))
  end.

(** ** The log-gamma function

    For [x > 0], [ln (Gamma x)] is the sum of Euler's series
    [- ln x + sum_{k >= 1} (x * ln (1 + 1/k) - ln (1 + x/k))].
    The series converges absolutely: its [k]-th term is bounded by
    [(x^2 + x) / k^2]. *)

Definition euler_term (x : R) (k : nat) : R :=
  x * ln (1 + / INR (S k)) - ln (1 + x / INR (S k)).

Definition euler_partial (x : R) (N : nat) : R :=
  - ln x + sum_f_R0 (euler_term x) N.

Lemma ln_le_compat (a b : R) : 0 < a -> a <= b -> ln a <= ln b.
Proof.
  intros Ha [Hlt | ->]; [left; now apply ln_increasing | right; reflexivity].
Qed.

Lemma ln_le_sub1 (z : R) : 0 < z -> ln z <= z - 1.
Proof.
  intros Hz. rewrite <- (ln_exp (z - 1)).
  apply ln_le_compat; [assumption |].
  pose proof (exp_ineq1_le (z - 1)); lra.
Qed.

Lemma ln1p_upper (u : R) : 0 <= u -> ln (1 + u) <= u.
Proof. intros Hu. pose proof (ln_le_sub1 (1 + u)); lra. Qed.

Lemma ln1p_lower (u : R) : 0 <= u -> u - u * u <= ln (1 + u).
Proof.
  intros Hu.
  assert (H1 : 0 < 1 + u) by lra.
  pose proof (ln_le_sub1 (/ (1 + u)) (Rinv_0_lt_compat _ H1)) as H.
  rewrite ln_Rinv in H by assumption.
  assert (Ht : / (1 + u) * (1 + u) = 1) by (field; lra).
  assert (Hc : 0 <= u * u * u).
  { apply Rmult_le_pos; [apply Rmult_le_pos |]; assumption. }
  assert (Hi : / (1 + u) <= 1 - u + u * u).
  { apply Rmult_le_reg_r with (1 + u); [assumption |]. rewrite Ht. nra. }
  lra.
Qed.

Lemma INR_S_pos (k : nat) : 0 < INR (S k).
Proof. apply lt_0_INR; lia. Qed.

Lemma euler_term_bound (x : R) (k : nat) :
  0 <= x ->
  Rabs (euler_term x k) <= (/ INR (S k) - / INR (S (S k))) * (2 * (x * x + x)).
Proof.
  intros Hx. unfold euler_term.
  pose proof (INR_S_pos k) as Hk.
  pose proof (INR_S_pos (S k)) as Hk'.
  assert (HSS : INR (S (S k)) = INR (S k) + 1) by (rewrite (S_INR (S k)); reflexivity).
  set (m := INR (S k)) in *.
  assert (Ha : 0 < / m) by now apply Rinv_0_lt_compat.
  set (a := / m) in *.
  assert (Hxa : x / m = x * a) by reflexivity.
  rewrite Hxa.
  assert (Hxa0 : 0 <= x * a) by (apply Rmult_le_pos; lra).
  pose proof (ln1p_upper a (Rlt_le _ _ Ha)) as U1.
  pose proof (ln1p_lower a (Rlt_le _ _ Ha)) as L1.
  pose proof (ln1p_upper (x * a) Hxa0) as U2.
  pose proof (ln1p_lower (x * a) Hxa0) as L2.
  assert (Hsq : a * a <= 2 * (a - / INR (S (S k)))).
  { rewrite HSS.
    assert (Hm : a * m = 1) by (unfold a; field; lra).
    assert (Hm1 : / (m + 1) * (m + 1) = 1) by (field; lra).
    assert (Hp : 0 < / (m + 1)) by (apply Rinv_0_lt_compat; lra).
    set (b := / (m + 1)) in *.
    (* a - b = a * b, and a <= 2 b since m + 1 <= 2 m *)
    assert (Hab : a - b = a * b) by nra.
    assert (H1m : 1 <= m).
    { unfold m. replace 1 with (INR 1) by reflexivity. apply le_INR; lia. }
    assert (Ha2b : a <= 2 * b).
    { apply Rmult_le_reg_r with (m * (m + 1)); [nra |].
      replace (a * (m * (m + 1))) with ((a * m) * (m + 1)) by ring.
      replace (2 * b * (m * (m + 1))) with (2 * (b * (m + 1)) * m) by ring.
      rewrite Hm, Hm1. lra. }
    rewrite Hab. nra. }
  assert (Hxx : 0 <= x * x) by nra.
  assert (Haa : 0 <= a * a) by nra.
  apply Rabs_le. split.
  - (* lower *)
    assert (- (x * (a * a)) <= x * ln (1 + a) - ln (1 + x * a)) by nra.
    nra.
  - assert (x * ln (1 + a) - ln (1 + x * a) <= x * x * (a * a)) by nra.
    nra.
Qed.

Lemma telescope_sum (N : nat) :
  sum_f_R0 (fun k => / INR (S k) - / INR (S (S k))) N = 1 - / INR (S (S N)).
Proof.
  induction N as [| N IH].
  - simpl. lra.
  - rewrite tech5, IH. lra.
Qed.

Lemma inv_INR_cv_0 : Un_cv (fun N => / INR (S (S N))) 0.
Proof.
  apply cv_infty_cv_0. intros M.
  destruct (archimed M) as [Hup _].
  exists (Z.to_nat (up M)). intros n Hn.
  apply Rlt_le_trans with (IZR (up M)); [assumption |].
  destruct (Z_lt_le_dec (up M) 0) as [Hneg | Hpos].
  - apply Rle_trans with 0; [apply IZR_le; lia | apply pos_INR].
  - rewrite <- (Z2Nat.id (up M)) by assumption. rewrite <- INR_IZR_INZ.
    apply le_INR. lia.
Qed.

Lemma Un_cv_const (c : R) : Un_cv (fun _ => c) c.
Proof.
  intros eps Heps. exists 0%nat. intros n _.
  unfold Rdist. rewrite Rminus_diag, Rabs_R0. assumption.
Qed.

Lemma telescope_cv :
  Un_cv (fun N => sum_f_R0 (fun k => / INR (S k) - / INR (S (S k))) N) 1.
Proof.
  apply Un_cv_ext with (fun N => 1 - / INR (S (S N))).
  - intros N. symmetry. apply telescope_sum.
  - replace 1 with (1 - 0) at 1 by ring.
    apply CV_minus; [| apply inv_INR_cv_0].
    apply Un_cv_const.
Qed.

Lemma euler_series_cv (x : R) :
  { l : R | 0 <= x -> Un_cv (fun N => sum_f_R0 (euler_term x) N) l }.
Proof.
  destruct (Rle_dec 0 x) as [Hx | Hx].
  - assert (X : { l : R | Un_cv (fun N => sum_f_R0 (euler_term x) N) l }).
    { apply cv_cauchy_2, cauchy_abs, cv_cauchy_1.
      apply Rseries_CV_comp
        with (Bn := fun k => (/ INR (S k) - / INR (S (S k))) * (2 * (x * x + x))).
      - intros k. split; [apply Rabs_pos | now apply euler_term_bound].
      - exists (2 * (x * x + x) * 1).
        apply Un_cv_ext
          with (fun N => 2 * (x * x + x)
                         * sum_f_R0 (fun k => / INR (S k) - / INR (S (S k))) N).
        + intros N. apply scal_sum.
        + apply CV_mult; [| apply telescope_cv].
          apply Un_cv_const. }
    destruct X as [l Hl]. exists l. intros _. exact Hl.
  - exists 0. intros H. contradiction.
Qed.

Definition lgamma_pos (x : R) : R := - ln x + proj1_sig (euler_series_cv x).

Lemma lgamma_pos_cv (x : R) : 0 < x -> Un_cv (euler_partial x) (lgamma_pos x).
Proof.
  intros Hx. unfold euler_partial, lgamma_pos.
  apply CV_plus with (An := fun _ => - ln x)
                     (Bn := fun N => sum_f_R0 (euler_term x) N).
  - apply Un_cv_const.
  - apply (proj2_sig (euler_series_cv x)). lra.
Qed.

Lemma ln1p_div (y m : R) : 0 < m -> 0 < m + y -> ln (1 + y / m) = ln (m + y) - ln m.
Proof.
  intros Hm Hy.
  replace (1 + y / m) with ((m + y) * / m) by (field; lra).
  rewrite ln_mult, ln_Rinv; try assumption; [ring | now apply Rinv_0_lt_compat].
Qed.

Lemma euler_partial_succ (x : R) (N : nat) :
  0 < x ->
  euler_partial (x + 1) N
  = euler_partial x N + (ln x + (ln (INR (S (S N))) - ln (x + INR (S (S N))))).
Proof.
  intros Hx. unfold euler_partial.
  assert (Hstep : forall k,
    euler_term (x + 1) k - euler_term x k
    = (ln (INR (S (S k))) - ln (x + INR (S (S k))))
      - (ln (INR (S k)) - ln (x + INR (S k)))).
  { intros k. unfold euler_term.
    pose proof (INR_S_pos k) as Hk.
    rewrite (S_INR (S k)).
    replace (1 + / INR (S k)) with (1 + 1 / INR (S k)) by (field; lra).
    rewrite !ln1p_div by lra.
    replace (INR (S k) + (x + 1)) with (x + (INR (S k) + 1)) by ring.
    replace (INR (S k) + x) with (x + INR (S k)) by ring.
    replace (INR (S k) + 1 + 0) with (INR (S k) + 1) by ring.
    ring. }
  induction N as [| N IH].
  - simpl sum_f_R0. specialize (Hstep 0%nat).
    change (INR 1) with 1 in Hstep. rewrite ln_1 in Hstep. lra.
  - rewrite !tech5. specialize (Hstep (S N)). lra.
Qed.

Lemma ln_ratio_cv_0 (x : R) :
  0 <= x -> Un_cv (fun N => ln (INR (S (S N))) - ln (x + INR (S (S N)))) 0.
Proof.
  intros Hx eps Heps.
  assert (He : 0 < eps / (x + 1)) by (apply Rdiv_lt_0_compat; lra).
  destruct (inv_INR_cv_0 _ He) as [N0 HN0].
  exists N0. intros n Hn. specialize (HN0 n Hn).
  unfold Rdist in *. rewrite Rminus_0_r in *.
  pose proof (INR_S_pos (S n)) as Hm.
  set (m := INR (S (S n))) in *.
  assert (Hinv : 0 < / m) by now apply Rinv_0_lt_compat.
  rewrite Rabs_pos_eq in HN0 by lra.
  assert (Heq : ln m - ln (x + m) = - ln (1 + x / m)).
  { rewrite ln1p_div by lra. replace (m + x) with (x + m) by ring. ring. }
  rewrite Heq, Rabs_Ropp.
  assert (Hxm : 0 <= x / m) by (apply Rmult_le_pos; lra).
  pose proof (ln1p_upper _ Hxm) as Hu.
  assert (Hl : 0 <= ln (1 + x / m)).
  { rewrite <- ln_1. apply ln_le_compat; lra. }
  rewrite Rabs_pos_eq by assumption.
  apply Rle_lt_trans with (x / m); [assumption |].
  apply Rle_lt_trans with (x * (eps / (x + 1))).
  - unfold Rdiv at 1. apply Rmult_le_compat_l; lra.
  - assert (Hq : eps / (x + 1) * (x + 1) = eps) by (field; lra).
    assert (0 < eps / (x + 1)) by assumption. nra.
Qed.

Lemma lgamma_pos_succ (x : R) : 0 < x -> lgamma_pos (x + 1) = lgamma_pos x + ln x.
Proof.
  intros Hx.
  apply UL_sequence with (euler_partial (x + 1)).
  - apply lgamma_pos_cv; lra.
  - apply Un_cv_ext
      with (fun N => euler_partial x N
                     + (ln x + (ln (INR (S (S N))) - ln (x + INR (S (S N)))))).
    + intros N. symmetry. now apply euler_partial_succ.
    + apply CV_plus; [now apply lgamma_pos_cv |].
      replace (ln x) with (ln x + 0) at 1 by ring.
      apply CV_plus with (An := fun _ => ln x); [| apply ln_ratio_cv_0; lra].
      apply Un_cv_const.
Qed.

Lemma lgamma_pos_1 : lgamma_pos 1 = 0.
Proof.
  apply UL_sequence with (euler_partial 1).
  - apply lgamma_pos_cv; lra.
  - apply Un_cv_ext with (fun _ => 0).
    + intros N. unfold euler_partial. rewrite ln_1.
      induction N as [| N IH].
      * simpl. unfold euler_term. unfold Rdiv. rewrite !Rmult_1_l. lra.
      * rewrite tech5. unfold euler_term at 2.
        unfold Rdiv. rewrite !Rmult_1_l. lra.
    + apply Un_cv_const.
Qed.

(** [ln |Gamma v|] for every real [v] that is not a pole: below zero the
    recurrence [Gamma (v + 1) = v * Gamma v] is unwound until the argument is
    positive. *)
Fixpoint lgamma_shift (k : nat) (v : R) : R :=
  match k with
  | O => lgamma_pos v
  | S k' => lgamma_shift k' (v + 1) - ln (Rabs v)
  end.

Definition lgamma (v : R) : R :=
  if Rlt_dec 0 v then lgamma_pos v
  else lgamma_shift (Z.to_nat (1 - Int_part v)) v.

(** The poles of Gamma: zero and the negative integers. *)
Definition is_pole (v : R) : bool :=
  if Rle_dec v 0
  then (if Req_dec_T (IZR (Int_part v)) v then true else false)
  else false.

(** [math.lgamma]: CPython raises [ValueError] ("math domain error") at a
    pole. *)
Definition math_lgamma (v : R) : result R :=
  if is_pole v then Raises ValueError else Returns (lgamma v).

(** ** Python built-ins *)

(** [int(r)]: truncation toward zero. *)
Definition py_int (r : R) : Z :=
  if Rle_dec 0 r then Int_part r else (- Int_part (- r))%Z.

(** [range(a, b)]. *)
Definition py_range (a b : Z) : list Z :=
  map (fun i => (a + Z.of_nat i)%Z) (seq 0 (Z.to_nat (b - a))).

(** ** [_logfactorial] *)

Definition _logfactorial (n : R) : result R := math_lgamma (n + 1).

(** ** [_hypergeometric_pmf] *)

Definition pmf_start (n x_i y_j : R) : Z :=
  py_int (Rmax 0 (n - (n - x_i) - (n - y_j))).

Definition pmf_end (n x_i y_j : R) : Z :=
  py_int (Rmin x_i y_j).

(** The statements before the loop; they run when the generator is first
    advanced. *)
Definition pmf_setup (n x_i y_j : R) : result (R * R) :=
  let start := pmf_start n x_i y_j in
  a1 <- _logfactorial x_i ;;
  a2 <- _logfactorial y_j ;;
  a3 <- _logfactorial (n - x_i) ;;
  a4 <- _logfactorial (n - y_j) ;;
  let numerator := a1 + a2 + a3 + a4 in
  b1 <- _logfactorial n ;;
  b2 <- _logfactorial (IZR start) ;;
  b3 <- _logfactorial (x_i - IZR start) ;;
  b4 <- _logfactorial (y_j - IZR start) ;;
  b5 <- _logfactorial (n - x_i - y_j + IZR start) ;;
  let denominator := b1 + b2 + b3 + b4 + b5 in
  Returns (numerator, denominator).

(** The amount added to [denominator] in the iteration for [n_j]. *)
Definition denominator_step (n x_i y_j : R) (n_j : Z) : xreal :=
  xadd (xsub (xsub (np_log (IZR n_j + 1)) (np_log (x_i - IZR n_j)))
             (np_log (y_j - IZR n_j)))
       (np_log (n - x_i - y_j + IZR n_j + 1)).

(** The body of [for n_j in range(start, end + 1)], threading the mutable
    [denominator]. *)
Fixpoint pmf_loop (n x_i y_j numerator : R) (js : list Z) (denominator : xreal)
  : list (Z * xreal) :=
  match js with
  | [] => []
  | n_j :: js' =>
      let p_j := np_exp (xsub (Fin numerator) denominator) in
      let denominator' := xadd denominator (denominator_step n x_i y_j n_j) in
      (n_j, p_j) :: pmf_loop n x_i y_j numerator js' denominator'
  end.

(** The whole sequence the generator yields, or the exception raised when it
    is first advanced. *)
Definition _hypergeometric_pmf (n x_i y_j : R) : result (list (Z * xreal)) :=
  nd <- pmf_setup n x_i y_j ;;
  Returns (pmf_loop n x_i y_j (fst nd)
                    (py_range (pmf_start n x_i y_j) (pmf_end n x_i y_j + 1))
                    (Fin (snd nd))).

(** ** [calculate_partial_expected_mutual_information] *)

Definition emi_coefficient (n x_i y_j : R) : xreal :=
  xadd (xsub (xopp (np_log2 x_i)) (np_log2 y_j)) (np_log2 n).

(** One iteration of the [for] loop on the pair of accumulators
    [(partial_result, sum_probability)]. *)
Definition emi_body (coefficient : xreal) (acc : pynum * pynum)
  (item : Z * xreal) : pynum * pynum :=
  let '(partial_result, sum_probability) := acc in
  let '(n_j, p_j) := item in
  ((if Z.eq_dec n_j 0 then partial_result
    else py_iadd partial_result
           (xmul (xmul (Fin (IZR n_j))
                       (xadd coefficient (np_log2 (IZR n_j))))
                 p_j)),
   py_iadd sum_probability p_j).

Definition calculate_partial_expected_mutual_information (n x_i y_j : R)
  : result pynum :=
  let coefficient := emi_coefficient n x_i y_j in
  pmf <- _hypergeometric_pmf n x_i y_j ;;
  let acc := fold_left (emi_body coefficient) pmf (PyFloat 0, PyFloat 0) in
  py_truediv (fst acc) (snd acc).

(** ** [calculate_partial_mutual_information] *)

Definition calculate_partial_mutual_information (n_ij x_i y_j n : R) : pynum :=
  if Req_dec_T n_ij 0 then PyInt 0
  else NpFloat64
         (xmul (Fin n_ij)
               (xsub (xadd (np_log2 n_ij) (np_log2 n))
                     (xadd (np_log2 x_i) (np_log2 y_j)))).

(** ** The generator and its consumer, step by step

    [_hypergeometric_pmf] is a generator: nothing of its body runs when it is
    called, and each [next] runs it up to the following [yield].  The states
    below are the points at which a generator object can be observed. *)

Inductive gen_state : Type :=
| GenCreated (n x_i y_j : R)
| GenSuspended (n x_i y_j numerator : R) (denominator : xreal) (n_j stop : Z)
| GenFinished.

(** Entering the loop with the range iterator at [n_j]: either one more
    iteration up to its [yield], or the end of the range. *)
Definition gen_resume (n x_i y_j numerator : R) (denominator : xreal)
  (n_j stop : Z) : option (Z * xreal) * gen_state :=
  if Z_lt_dec n_j stop then
    let p_j := np_exp (xsub (Fin numerator) denominator) in
    let denominator' := xadd denominator (denominator_step n x_i y_j n_j) in
    (Some (n_j, p_j),
     GenSuspended n x_i y_j numerator denominator' (n_j + 1) stop)
  else (None, GenFinished).

(** [next(g)]; [None] stands for [StopIteration]. *)
Definition gen_next (g : gen_state)
  : result (option (Z * xreal) * gen_state) :=
  match g with
  | GenCreated n x_i y_j =>
      nd <- pmf_setup n x_i y_j ;;
      Returns (gen_resume n x_i y_j (fst nd) (Fin (snd nd))
                          (pmf_start n x_i y_j) (pmf_end n x_i y_j + 1))
  | GenSuspended n x_i y_j numerator denominator n_j stop =>
      Returns (gen_resume n x_i y_j numerator denominator n_j stop)
  | GenFinished => Returns (None, GenFinished)
  end.

(** The [for] loop of [calculate_partial_expected_mutual_information] and the
    [return] after it, as an evaluation relation: from generator state [g] and
    accumulators [partial_result], [sum_probability] the call ends with
    outcome [r]. *)
Inductive emi_loop (coefficient : xreal)
  : gen_state -> pynum -> pynum -> result pynum -> Prop :=
| emi_loop_raise g partial_result sum_probability e :
    gen_next g = Raises e ->
    emi_loop coefficient g partial_result sum_probability (Raises e)
| emi_loop_stop g g' partial_result sum_probability :
    gen_next g = Returns (None, g') ->
    emi_loop coefficient g partial_result sum_probability
             (py_truediv partial_result sum_probability)
| emi_loop_item g g' item partial_result sum_probability r :
    gen_next g = Returns (Some item, g') ->
    emi_loop coefficient g'
             (fst (emi_body coefficient (partial_result, sum_probability) item))
             (snd (emi_body coefficient (partial_result, sum_probability) item))
             r ->
    emi_loop coefficient g partial_result sum_probability r.

Definition emi_eval (n x_i y_j : R) (r : result pynum) : Prop :=
  emi_loop (emi_coefficient n x_i y_j) (GenCreated n x_i y_j)
           (PyFloat 0) (PyFloat 0) r.

(** ** Reference formulas

    The closed forms that the documentation gives, against which the code is
    compared. *)

(** [ln (z!)] where the code's [_logfactorial z] returns. *)
Definition logfact (z : R) : R := lgamma (z + 1).

Definition log_numerator (n x_i y_j : R) : R :=
  logfact x_i + logfact y_j + logfact (n - x_i) + logfact (n - y_j).

Definition log_denominator (n x_i y_j : R) (n_ij : Z) : R :=
  logfact n + logfact (IZR n_ij) + logfact (x_i - IZR n_ij)
  + logfact (y_j - IZR n_ij) + logfact (n - x_i - y_j + IZR n_ij).

(** The hypergeometric probability of the joint count [n_ij]:
    [x_i! y_j! (n - x_i)! (n - y_j)!
     / (n! n_ij! (x_i - n_ij)! (y_j - n_ij)! (n - x_i - y_j + n_ij)!)]. *)
Definition hypergeometric_closed (n x_i y_j : R) (n_ij : Z) : R :=
  exp (log_numerator n x_i y_j - log_denominator n x_i y_j n_ij).



(** One term of the expected mutual information as the docstring of
    [calculate_partial_expected_mutual_information] writes it:
    [n_ij / n * log2 (n * n_ij / (x_i * y_j)) * p(n_ij)]. *)
Definition emi_doc_term (n x_i y_j : R) (n_ij : Z) : R :=
  IZR n_ij / n * log2 (n * IZR n_ij / (x_i * y_j))
  * hypergeometric_closed n x_i y_j n_ij.

(** The term the loop accumulates: the same without the division by [n]. *)
Definition emi_code_term (n x_i y_j : R) (n_ij : Z) : R :=
  IZR n_ij * (- log2 x_i - log2 y_j + log2 n + log2 (IZR n_ij))
  * hypergeometric_closed n x_i y_j n_ij.

Definition Rsum (f : Z -> R) (ks : list Z) : R :=
  fold_right (fun k acc => f k + acc) 0 ks.

Definition pmf_support (n x_i y_j : R) : list Z :=
  py_range (pmf_start n x_i y_j) (pmf_end n x_i y_j + 1).

(** The docstring's sum over [max(0, x_i + y_j - n) .. min(x_i, y_j)]. *)
Definition emi_doc (n x_i y_j : R) : R :=
  Rsum (emi_doc_term n x_i y_j) (pmf_support n x_i y_j).

(** The probability mass a consumer of the sequence accumulates. *)
Definition pmf_total_mass (l : list (Z * xreal)) : xreal :=
  fold_left (fun s item => xadd s (snd item)) l (Fin 0).

(** Whether one of the nine calls of [math.lgamma] made before the loop hits
    a pole. *)
Definition setup_hits_pole (n x_i y_j : R) : bool :=
  let start := IZR (pmf_start n x_i y_j) in
  is_pole (x_i + 1) || is_pole (y_j + 1) || is_pole (n - x_i + 1)
  || is_pole (n - y_j + 1) || is_pole (n + 1) || is_pole (start + 1)
  || is_pole (x_i - start + 1) || is_pole (y_j - start + 1)
  || is_pole (n - x_i - y_j + start + 1).

(** A finite double-precision number: [m * 2^e] with a significand of at
    most 53 bits and an exponent in the range of binary64 (subnormal numbers
    included). *)
Definition binary64 (r : R) : Prop :=
  exists m e : Z,
    (Z.abs m < 2 ^ 53)%Z /\ (-1074 <= e <= 971)%Z /\ r = IZR m * powerRZ 2 e.

(** Arguments on which the double-precision operations that decide the course
    of the computation are exact: [n], [x_i] and [y_j] are multiples of
    [2^-s], [s <= 50], with numerators of magnitude at most [2^50].  Integral
    counts are the case [s = 0]; weights such as [2.5] or [2.25] are on the
    grids [s = 1] and [s = 2]. *)
Definition exact_args (s : nat) (n x_i y_j : R) : Prop :=
  (s <= 50)%nat
  /\ exists zn zx zy : Z,
       (Z.abs zn <= 2 ^ 50)%Z /\ (Z.abs zx <= 2 ^ 50)%Z
       /\ (Z.abs zy <= 2 ^ 50)%Z
       /\ n = IZR zn / 2 ^ s /\ x_i = IZR zx / 2 ^ s /\ y_j = IZR zy / 2 ^ s.

(** The operands of [int (...)] and of [math.lgamma] in [_hypergeometric_pmf],
    with the intermediate results of the subtractions and additions that
    produce them, in the order in which the code forms them. *)
Definition pmf_operands (n x_i y_j : R) : list R :=
  let start := IZR (pmf_start n x_i y_j) in
  [n - x_i; n - (n - x_i); n - y_j; n - (n - x_i) - (n - y_j);
   x_i + 1; y_j + 1; n - x_i + 1; n - y_j + 1; n + 1; start; start + 1;
   x_i - start; x_i - start + 1; y_j - start; y_j - start + 1;
   n - x_i - y_j; n - x_i - y_j + start; n - x_i - y_j + start + 1].

(** The bound [start] as the code computes it on floats: [fl] is the rounding
    that follows each double-precision subtraction of
    [n - (n - x_i) - (n - y_j)]. *)
Definition pmf_start_fl (fl : R -> R) (n x_i y_j : R) : Z :=
  py_int (Rmax 0 (fl (fl (n - fl (n - x_i)) - fl (n - y_j)))).

(** The nine arguments of [math.lgamma] before the loop, in the order of the
    calls: first in exact arithmetic, then with the rounding [fl] after each
    operation.  [start] is a Python [int]; it is converted to a double when it
    meets a float and when it enters [math.lgamma]. *)
Definition lgamma_args (n x_i y_j : R) : list R :=
  let start := IZR (pmf_start n x_i y_j) in
  [x_i + 1; y_j + 1; n - x_i + 1; n - y_j + 1; n + 1; start + 1;
   x_i - start + 1; y_j - start + 1; n - x_i - y_j + start + 1].

Definition lgamma_args_fl (fl : R -> R) (n x_i y_j : R) : list R :=
  let start := IZR (pmf_start_fl fl n x_i y_j) in
  [fl (x_i + 1); fl (y_j + 1); fl (fl (n - x_i) + 1); fl (fl (n - y_j) + 1);
   fl (n + 1); fl (start + 1);
   fl (fl (x_i - fl start) + 1); fl (fl (y_j - fl start) + 1);
   fl (fl (fl (fl (n - x_i) - y_j) + fl start) + 1)].

(** Rounding does not show where it could change the course of the
    computation: whatever the rounding [fl] is, as long as it leaves doubles
    unchanged, the bound [start] and the nine arguments of [math.lgamma]
    computed with rounding are those of exact arithmetic.  The other bound,
    [int (min (x_i, y_j))], involves no arithmetic. *)
Definition rounding_invisible (n x_i y_j : R) : Prop :=
  forall fl : R -> R,
    (forall r, binary64 r -> fl r = r) ->
    pmf_start_fl fl n x_i y_j = pmf_start n x_i y_j
    /\ lgamma_args_fl fl n x_i y_j = lgamma_args n x_i y_j.

(** * Properties *)

(** ** Extended reals *)

Lemma xadd_comm (a b : xreal) : xadd a b = xadd b a.
Proof. destruct a, b; simpl; try reflexivity. f_equal; ring. Qed.

Lemma xopp_xsub_swap (a b : xreal) : xsub (xopp a) b = xsub (xopp b) a.
Proof. unfold xsub. apply xadd_comm. Qed.

Lemma np_log_pos (r : R) : 0 < r -> np_log r = Fin (ln r).
Proof.
  intros Hr. unfold np_log. destruct (Rlt_dec 0 r); [reflexivity | contradiction].
Qed.

Lemma np_log2_pos (r : R) : 0 < r -> np_log2 r = Fin (log2 r).
Proof.
  intros Hr. unfold np_log2. destruct (Rlt_dec 0 r); [reflexivity | contradiction].
Qed.

Lemma ln_2_pos : 0 < ln 2.
Proof. pose proof ln_lt_2; lra. Qed.

Lemma log2_1 : log2 1 = 0.
Proof. unfold log2. rewrite ln_1. unfold Rdiv. ring. Qed.

Lemma log2_2 : log2 2 = 1.
Proof. unfold log2. field. pose proof ln_2_pos; lra. Qed.

Lemma log2_mult (a b : R) : 0 < a -> 0 < b -> log2 (a * b) = log2 a + log2 b.
Proof.
  intros Ha Hb. unfold log2. rewrite ln_mult by assumption.
  field. pose proof ln_2_pos; lra.
Qed.

Lemma log2_div (a b : R) : 0 < a -> 0 < b -> log2 (a / b) = log2 a - log2 b.
Proof.
  intros Ha Hb. unfold log2.
  assert (Hl : ln (a / b) = ln a - ln b).
  { unfold Rdiv. rewrite ln_mult, ln_Rinv; try assumption; [ring |].
    now apply Rinv_0_lt_compat. }
  rewrite Hl. field. pose proof ln_2_pos; lra.
Qed.

(** ** [int] and [range] *)

Lemma py_int_nonneg (r : R) :
  0 <= r -> (0 <= py_int r)%Z /\ IZR (py_int r) <= r < IZR (py_int r) + 1.
Proof.
  intros Hr. unfold py_int. destruct (Rle_dec 0 r) as [_ | H]; [| contradiction].
  destruct (base_Int_part r) as [Hle Hgt].
  split; [| lra].
  apply le_IZR. destruct (Z_lt_le_dec (Int_part r) 0) as [Hneg | Hpos].
  - exfalso. assert (IZR (Int_part r) <= -1) by (apply IZR_le; lia). lra.
  - now apply IZR_le.
Qed.

Lemma py_int_neg (r : R) : r < 0 -> (py_int r <= 0)%Z.
Proof.
  intros Hr. unfold py_int. destruct (Rle_dec 0 r) as [H | _]; [lra |].
  destruct (base_Int_part (- r)) as [Hle Hgt].
  destruct (Z_lt_le_dec (Int_part (- r)) 0) as [Hneg | Hpos]; [| lia].
  exfalso. assert (IZR (Int_part (- r)) <= -1) by (apply IZR_le; lia). lra.
Qed.

Lemma Int_part_IZR (z : Z) : Int_part (IZR z) = z.
Proof. symmetry. apply Int_part_spec. lra. Qed.

Lemma py_int_IZR (z : Z) : py_int (IZR z) = z.
Proof.
  unfold py_int. destruct (Rle_dec 0 (IZR z)) as [_ | _].
  - apply Int_part_IZR.
  - rewrite <- opp_IZR, Int_part_IZR. lia.
Qed.

Lemma py_int_mono (a b : R) : 0 <= a -> a <= b -> (py_int a <= py_int b)%Z.
Proof.
  intros Ha Hab.
  destruct (py_int_nonneg a Ha) as [_ [La Ua]].
  destruct (py_int_nonneg b (Rle_trans _ _ _ Ha Hab)) as [_ [Lb Ub]].
  apply Z.lt_succ_r, lt_IZR. rewrite succ_IZR. lra.
Qed.

Lemma py_range_nil (a b : Z) : (b <= a)%Z -> py_range a b = [].
Proof.
  intros H. unfold py_range. replace (Z.to_nat (b - a)) with O by lia. reflexivity.
Qed.

Lemma py_range_cons (a b : Z) :
  (a < b)%Z -> py_range a b = a :: py_range (a + 1) b.
Proof.
  intros H. unfold py_range.
  replace (Z.to_nat (b - a)) with (S (Z.to_nat (b - (a + 1)))) by lia.
  simpl seq. simpl map. f_equal; [lia |].
  rewrite <- seq_shift, map_map. apply map_ext. intros i. lia.
Qed.

Lemma py_range_length (a b : Z) : length (py_range a b) = Z.to_nat (b - a).
Proof. unfold py_range. now rewrite length_map, length_seq. Qed.

Lemma py_range_In (a b k : Z) : In k (py_range a b) <-> (a <= k < b)%Z.
Proof.
  unfold py_range. rewrite in_map_iff. split.
  - intros [i [<- Hi]]. apply in_seq in Hi. lia.
  - intros Hk. exists (Z.to_nat (k - a)). split; [lia |]. apply in_seq. lia.
Qed.

Lemma py_range_sorted (a b : Z) : StronglySorted Z.lt (py_range a b).
Proof.
  remember (Z.to_nat (b - a)) as len eqn:Hlen.
  revert a Hlen. induction len as [| len IH]; intros a Hlen.
  - rewrite py_range_nil by lia. constructor.
  - rewrite py_range_cons by lia. constructor.
    + apply IH. lia.
    + apply Forall_forall. intros k Hk. apply py_range_In in Hk. lia.
Qed.

(** ** Log-gamma and [_logfactorial] *)

Lemma is_pole_pos (v : R) : 0 < v -> is_pole v = false.
Proof.
  intros Hv. unfold is_pole. destruct (Rle_dec v 0); [lra | reflexivity].
Qed.

Lemma is_pole_IZR (z : Z) : (z <= 0)%Z -> is_pole (IZR z) = true.
Proof.
  intros Hz. unfold is_pole.
  destruct (Rle_dec (IZR z) 0) as [_ | H].
  - rewrite Int_part_IZR. destruct (Req_dec_T (IZR z) (IZR z)); [reflexivity | contradiction].
  - exfalso. apply H. now apply IZR_le.
Qed.

Lemma lgamma_positive (v : R) : 0 < v -> lgamma v = lgamma_pos v.
Proof.
  intros Hv. unfold lgamma. destruct (Rlt_dec 0 v); [reflexivity | contradiction].
Qed.

Lemma lgamma_1 : lgamma 1 = 0.
Proof. rewrite lgamma_positive by lra. apply lgamma_pos_1. Qed.

Lemma lgamma_succ (z : R) : 0 < z -> lgamma (z + 1) = lgamma z + ln z.
Proof.
  intros Hz. rewrite !lgamma_positive by lra. now apply lgamma_pos_succ.
Qed.

Lemma logfact_0 : logfact 0 = 0.
Proof. unfold logfact. rewrite Rplus_0_l. apply lgamma_1. Qed.

Lemma logfact_succ (z : R) : -1 < z -> logfact (z + 1) = logfact z + ln (z + 1).
Proof. intros Hz. unfold logfact. apply lgamma_succ. lra. Qed.

Lemma logfact_1 : logfact 1 = 0.
Proof.
  replace 1 with (0 + 1) by ring. rewrite logfact_succ by lra.
  rewrite logfact_0. replace (0 + 1) with 1 by ring. rewrite ln_1. ring.
Qed.

Lemma logfact_2 : logfact 2 = ln 2.
Proof.
  replace 2 with (1 + 1) at 1 by ring. rewrite logfact_succ by lra.
  rewrite logfact_1. replace (1 + 1) with 2 by ring. ring.
Qed.

(** [_logfactorial] is "the natural logarithm of n!" on the naturals. *)
Lemma logfact_INR (k : nat) : logfact (INR k) = ln (INR (fact k)).
Proof.
  induction k as [| k IH].
  - simpl. rewrite logfact_0, ln_1. reflexivity.
  - rewrite S_INR, logfact_succ by (pose proof (pos_INR k); lra).
    rewrite IH. change (fact (S k)) with (S k * fact k)%nat.
    rewrite mult_INR, S_INR, ln_mult.
    + ring.
    + pose proof (pos_INR k); lra.
    + apply INR_fact_lt_0.
Qed.

Lemma lgamma_shift_pos (k : nat) :
  forall v, 0 < v -> lgamma_shift k v = lgamma_pos v.
Proof.
  induction k as [| k IH]; intros v Hv; [reflexivity |].
  cbn [lgamma_shift]. rewrite IH by lra.
  rewrite lgamma_pos_succ, Rabs_pos_eq by lra. ring.
Qed.

Lemma Int_part_succ (v : R) : Int_part (v + 1) = (Int_part v + 1)%Z.
Proof.
  symmetry. apply Int_part_spec. rewrite plus_IZR.
  destruct (base_Int_part v). lra.
Qed.

(** [lgamma] obeys the recurrence of [ln |Gamma|] on both sides of zero (at a
    pole [math_lgamma] raises instead of returning it). *)
Lemma lgamma_recurrence (v : R) : lgamma (v + 1) = lgamma v + ln (Rabs v).
Proof.
  destruct (Rlt_le_dec 0 v) as [Hpos | Hle].
  - rewrite Rabs_pos_eq by lra. now apply lgamma_succ.
  - assert (Hfloor : (Int_part v <= 0)%Z).
    { apply le_IZR. destruct (base_Int_part v). lra. }
    unfold lgamma at 2. destruct (Rlt_dec 0 v) as [H | _]; [lra |].
    replace (Z.to_nat (1 - Int_part v)) with (S (Z.to_nat (- Int_part v)))
      by lia.
    cbn [lgamma_shift].
    assert (Hnext : lgamma (v + 1)
                    = lgamma_shift (Z.to_nat (- Int_part v)) (v + 1)).
    { unfold lgamma. destruct (Rlt_dec 0 (v + 1)) as [H1 | H1].
      - now rewrite lgamma_shift_pos.
      - rewrite Int_part_succ. f_equal. lia. }
    rewrite Hnext. ring.
Qed.

Lemma _logfactorial_ok (z : R) : -1 < z -> _logfactorial z = Returns (logfact z).
Proof.
  intros Hz. unfold _logfactorial, math_lgamma.
  rewrite is_pole_pos by lra. reflexivity.
Qed.

(** The statements before the loop either raise [ValueError] or leave the
    two log-factorial sums in [numerator] and [denominator]. *)
Lemma pmf_setup_cases (n x_i y_j : R) :
  pmf_setup n x_i y_j
  = if setup_hits_pole n x_i y_j then Raises ValueError
    else Returns (log_numerator n x_i y_j,
                  log_denominator n x_i y_j (pmf_start n x_i y_j)).
Proof.
  unfold pmf_setup, setup_hits_pole, _logfactorial, math_lgamma.
  destruct (is_pole (x_i + 1)); [reflexivity |].
  destruct (is_pole (y_j + 1)); [reflexivity |].
  destruct (is_pole (n - x_i + 1)); [reflexivity |].
  destruct (is_pole (n - y_j + 1)); [reflexivity |].
  destruct (is_pole (n + 1)); [reflexivity |].
  destruct (is_pole (IZR (pmf_start n x_i y_j) + 1)); [reflexivity |].
  destruct (is_pole (x_i - IZR (pmf_start n x_i y_j) + 1)); [reflexivity |].
  destruct (is_pole (y_j - IZR (pmf_start n x_i y_j) + 1)); [reflexivity |].
  destruct (is_pole (n - x_i - y_j + IZR (pmf_start n x_i y_j) + 1));
    reflexivity.
Qed.

(** ** The support of the generator *)

Lemma pmf_start_bounds (n x_i y_j : R) :
  (0 <= pmf_start n x_i y_j)%Z
  /\ x_i + y_j - n - 1 < IZR (pmf_start n x_i y_j)
  /\ IZR (pmf_start n x_i y_j) <= Rmax 0 (x_i + y_j - n).
Proof.
  unfold pmf_start.
  replace (n - (n - x_i) - (n - y_j)) with (x_i + y_j - n) by ring.
  pose proof (Rmax_l 0 (x_i + y_j - n)) as H0.
  pose proof (Rmax_r 0 (x_i + y_j - n)) as H1.
  destruct (py_int_nonneg _ H0) as [Hz [Hl Hu]].
  repeat split; [assumption | lra | assumption].
Qed.

Lemma pmf_end_bounds (n x_i y_j : R) (k : Z) :
  (pmf_start n x_i y_j <= k < pmf_end n x_i y_j)%Z ->
  IZR k + 1 <= x_i /\ IZR k + 1 <= y_j.
Proof.
  intros [Hs He]. destruct (pmf_start_bounds n x_i y_j) as [H0 _].
  unfold pmf_end in He.
  destruct (Rle_lt_dec 0 (Rmin x_i y_j)) as [Hm | Hm].
  - destruct (py_int_nonneg _ Hm) as [_ [Hl _]].
    assert (Hk : IZR k + 1 <= IZR (py_int (Rmin x_i y_j))).
    { rewrite <- succ_IZR. apply IZR_le. lia. }
    pose proof (Rmin_l x_i y_j). pose proof (Rmin_r x_i y_j). lra.
  - pose proof (py_int_neg _ Hm). lia.
Qed.

Lemma log_denominator_succ (n x_i y_j : R) (k : Z) :
  0 <= IZR k -> 0 < x_i - IZR k -> 0 < y_j - IZR k ->
  0 < n - x_i - y_j + IZR k + 1 ->
  xadd (Fin (log_denominator n x_i y_j k)) (denominator_step n x_i y_j k)
  = Fin (log_denominator n x_i y_j (k + 1)).
Proof.
  intros Hk Hx Hy Hn. unfold denominator_step.
  rewrite !np_log_pos by lra. simpl. f_equal.
  unfold log_denominator. rewrite plus_IZR.
  rewrite (logfact_succ (IZR k)) by lra.
  replace (x_i - IZR k) with (x_i - (IZR k + 1) + 1) at 1 2 by ring.
  rewrite (logfact_succ (x_i - (IZR k + 1))) by lra.
  replace (y_j - IZR k) with (y_j - (IZR k + 1) + 1) at 1 2 by ring.
  rewrite (logfact_succ (y_j - (IZR k + 1))) by lra.
  replace (n - x_i - y_j + (IZR k + 1)) with (n - x_i - y_j + IZR k + 1) by ring.
  rewrite (logfact_succ (n - x_i - y_j + IZR k)) by lra.
  replace (x_i - (IZR k + 1) + 1) with (x_i - IZR k) by ring.
  replace (y_j - (IZR k + 1) + 1) with (y_j - IZR k) by ring.
  ring.
Qed.

(** The incremental loop computes the closed form at every joint count. *)
Lemma pmf_loop_closed (n x_i y_j numerator : R) (b : Z) :
  forall (len : nat) (a : Z),
    len = Z.to_nat (b - a) ->
    (0 <= a)%Z ->
    (forall k, (a <= k)%Z -> 0 < n - x_i - y_j + IZR k + 1) ->
    (forall k, (a <= k < b - 1)%Z -> 0 < x_i - IZR k /\ 0 < y_j - IZR k) ->
    pmf_loop n x_i y_j numerator (py_range a b)
             (Fin (log_denominator n x_i y_j a))
    = map (fun k => (k, Fin (exp (numerator - log_denominator n x_i y_j k))))
          (py_range a b).
Proof.
  induction len as [| len IH]; intros a Hlen Ha Hn Hxy.
  - rewrite py_range_nil by lia. reflexivity.
  - rewrite py_range_cons by lia. cbn [pmf_loop map]. f_equal.
    destruct (Z_lt_le_dec (a + 1) b) as [Hlt | Hge].
    + destruct (Hxy a ltac:(lia)) as [Hx Hy].
      rewrite log_denominator_succ;
        [| apply IZR_le; lia | assumption | assumption | apply Hn; lia].
      apply IH; [lia | lia | |].
      * intros k Hk. apply Hn. lia.
      * intros k Hk. apply Hxy. lia.
    + rewrite (py_range_nil (a + 1) b) by lia. reflexivity.
Qed.


(** What the generator does on arbitrary real arguments: [ValueError] when a
    log-factorial falls on a pole, and otherwise the closed-form probability
    of every joint count from [start] to [end]. *)
Lemma pmf_cases (n x_i y_j : R) :
  _hypergeometric_pmf n x_i y_j
  = if setup_hits_pole n x_i y_j then Raises ValueError
    else Returns
           (map (fun k => (k, Fin (hypergeometric_closed n x_i y_j k)))
                (pmf_support n x_i y_j)).
Proof.
  unfold _hypergeometric_pmf. rewrite pmf_setup_cases.
  destruct (setup_hits_pole n x_i y_j); [reflexivity |].
  simpl. f_equal. unfold pmf_support, hypergeometric_closed.
  destruct (pmf_start_bounds n x_i y_j) as [H0 [Hl _]].
  apply pmf_loop_closed with (len := Z.to_nat (pmf_end n x_i y_j + 1 - pmf_start n x_i y_j)).
  - reflexivity.
  - assumption.
  - intros k Hk. apply IZR_le in Hk. lra.
  - intros k Hk.
    destruct (pmf_end_bounds n x_i y_j k ltac:(lia)). lra.
Qed.

(** ** Valid marginals: [0 <= x_i <= n] and [0 <= y_j <= n] *)

Section ValidMarginals.

Variables n x_i y_j : R.
Hypothesis Hx : 0 <= x_i <= n.
Hypothesis Hy : 0 <= y_j <= n.

Lemma valid_no_pole : setup_hits_pole n x_i y_j = false.
Proof.
  unfold setup_hits_pole.
  destruct (pmf_start_bounds n x_i y_j) as [H0 [Hl Hu]].
  apply IZR_le in H0.
  assert (Hsx : IZR (pmf_start n x_i y_j) <= x_i).
  { eapply Rle_trans; [exact Hu |]. apply Rmax_lub; lra. }
  assert (Hsy : IZR (pmf_start n x_i y_j) <= y_j).
  { eapply Rle_trans; [exact Hu |]. apply Rmax_lub; lra. }
  rewrite !is_pole_pos by lra. reflexivity.
Qed.

Lemma valid_start_le_end : (pmf_start n x_i y_j <= pmf_end n x_i y_j)%Z.
Proof.
  unfold pmf_start, pmf_end.
  apply py_int_mono; [apply Rmax_l |].
  apply Rmax_lub; apply Rmin_glb; lra.
Qed.

Lemma valid_support_nonempty :
  exists ks, pmf_support n x_i y_j = pmf_start n x_i y_j :: ks.
Proof.
  pose proof valid_start_le_end.
  unfold pmf_support. rewrite py_range_cons by lia. eauto.
Qed.

Lemma pmf_valid :
  _hypergeometric_pmf n x_i y_j
  = Returns (map (fun k => (k, Fin (hypergeometric_closed n x_i y_j k)))
                 (pmf_support n x_i y_j)).
Proof. rewrite pmf_cases, valid_no_pole. reflexivity. Qed.

End ValidMarginals.

Lemma support_nonneg (n x_i y_j : R) (k : Z) :
  In k (pmf_support n x_i y_j) -> (0 <= k)%Z.
Proof.
  intros Hk. apply py_range_In in Hk.
  destruct (pmf_start_bounds n x_i y_j) as [H0 _]. lia.
Qed.

(** ** The accumulation loop *)

Lemma Rsum_pos (f : Z -> R) (ks : list Z) :
  (forall k, 0 < f k) -> ks <> [] -> 0 < Rsum f ks.
Proof.
  intros Hf. induction ks as [| k ks IH]; intros Hne; [contradiction |].
  simpl. destruct ks as [| k' ks'].
  - simpl. specialize (Hf k). lra.
  - assert (0 < Rsum f (k' :: ks')) by (apply IH; discriminate).
    specialize (Hf k). lra.
Qed.

Lemma emi_fold_finite (c : R) (p : Z -> R) (ks : list Z) :
  (forall k, In k ks -> (0 <= k)%Z) ->
  forall (pr sp : pynum) (a b : R),
    to_xreal pr = Fin a -> to_xreal sp = Fin b ->
    let acc := fold_left (emi_body (Fin c)) (map (fun k => (k, Fin (p k))) ks)
                         (pr, sp) in
    to_xreal (fst acc)
    = Fin (a + Rsum (fun k => IZR k * (c + log2 (IZR k)) * p k) ks)
    /\ to_xreal (snd acc) = Fin (b + Rsum p ks)
    /\ (ks <> [] -> exists v, snd acc = NpFloat64 v).
Proof.
  induction ks as [| k ks IH]; intros Hks pr sp a b Hpr Hsp.
  - simpl. rewrite Hpr, Hsp, !Rplus_0_r. repeat split. intros H; now elim H.
  - cbn [map fold_left].
    assert (Hk : (0 <= k)%Z) by (apply Hks; now left).
    set (acc1 := emi_body (Fin c) (pr, sp) (k, Fin (p k))).
    assert (H1 : to_xreal (fst acc1)
                 = Fin (a + IZR k * (c + log2 (IZR k)) * p k)).
    { unfold acc1, emi_body. destruct (Z.eq_dec k 0) as [-> | Hne].
      - cbn [fst]. rewrite Hpr. f_equal. ring.
      - cbn [fst]. unfold py_iadd. cbn [to_xreal]. rewrite Hpr.
        rewrite np_log2_pos by (apply IZR_lt; lia). reflexivity. }
    assert (H2 : snd acc1 = NpFloat64 (Fin (b + p k))).
    { unfold acc1, emi_body. cbn [snd]. unfold py_iadd. now rewrite Hsp. }
    assert (H2' : to_xreal (snd acc1) = Fin (b + p k)) by now rewrite H2.
    assert (Hks' : forall j, In j ks -> (0 <= j)%Z)
      by (intros j Hj; apply Hks; now right).
    destruct (IH Hks' (fst acc1) (snd acc1) _ _ H1 H2') as [E1 [E2 E3]].
    rewrite <- surjective_pairing in E1, E2, E3.
    cbn zeta. repeat split.
    + rewrite E1. simpl. f_equal. ring.
    + rewrite E2. simpl. f_equal. ring.
    + intros _. destruct ks as [| k' ks'].
      * cbn [map fold_left]. rewrite H2. eauto.
      * apply E3. discriminate.
Qed.

Lemma emi_coefficient_finite (n x_i y_j : R) :
  0 < n -> 0 < x_i -> 0 < y_j ->
  emi_coefficient n x_i y_j = Fin (- log2 x_i - log2 y_j + log2 n).
Proof.
  intros Hn Hx Hy. unfold emi_coefficient.
  rewrite !np_log2_pos by assumption. reflexivity.
Qed.

(** The value returned on valid marginals: the accumulated sum over the
    realised probability mass. *)
Lemma emi_value (n x_i y_j : R) :
  0 < n -> 0 < x_i <= n -> 0 < y_j <= n ->
  0 < Rsum (hypergeometric_closed n x_i y_j) (pmf_support n x_i y_j)
  /\ calculate_partial_expected_mutual_information n x_i y_j
     = Returns (NpFloat64 (Fin
         (Rsum (emi_code_term n x_i y_j) (pmf_support n x_i y_j)
          / Rsum (hypergeometric_closed n x_i y_j) (pmf_support n x_i y_j)))).
Proof.
  intros Hn Hx Hy.
  assert (Hmass : 0 < Rsum (hypergeometric_closed n x_i y_j)
                           (pmf_support n x_i y_j)).
  { apply Rsum_pos; [intros k; apply exp_pos |].
    destruct (valid_support_nonempty n x_i y_j) as [ks ->]; [lra | lra |].
    discriminate. }
  split; [assumption |].
  unfold calculate_partial_expected_mutual_information.
  rewrite pmf_valid by lra. cbn [bind].
  rewrite emi_coefficient_finite by lra.
  destruct (emi_fold_finite (- log2 x_i - log2 y_j + log2 n)
              (hypergeometric_closed n x_i y_j) (pmf_support n x_i y_j)
              (support_nonneg n x_i y_j) (PyFloat 0) (PyFloat 0) 0 0
              eq_refl eq_refl) as [E1 [E2 E3]].
  cbn zeta in E1, E2, E3.
  destruct E3 as [v Hv].
  { destruct (valid_support_nonempty n x_i y_j) as [ks ->]; [lra | lra |].
    discriminate. }
  set (acc := fold_left _ _ _) in *.
  rewrite Hv in E2 |- *. cbn [to_xreal] in E2. subst v.
  assert (Hdiv : forall a, py_truediv a (NpFloat64 (Fin (0 + Rsum (hypergeometric_closed n x_i y_j) (pmf_support n x_i y_j))))
                 = Returns (NpFloat64 (xdiv (to_xreal a) (Fin (0 + Rsum (hypergeometric_closed n x_i y_j) (pmf_support n x_i y_j)))))).
  { intros [z | r | w]; reflexivity. }
  rewrite Hdiv, E1. unfold xdiv.
  destruct (Req_dec_T _ 0) as [H0 | _]; [lra |].
  do 3 f_equal. rewrite !Rplus_0_l. reflexivity.
Qed.

(** ** The loop, iteration by iteration *)




(** ** [calculate_partial_mutual_information] *)

Lemma mi_nonzero (n_ij x_i y_j n : R) :
  n_ij <> 0 ->
  calculate_partial_mutual_information n_ij x_i y_j n
  = NpFloat64
      (xmul (Fin n_ij)
            (xsub (xadd (np_log2 n_ij) (np_log2 n))
                  (xadd (np_log2 x_i) (np_log2 y_j)))).
Proof.
  intros H. unfold calculate_partial_mutual_information.
  destruct (Req_dec_T n_ij 0); [contradiction | reflexivity].
Qed.

Lemma np_log2_neg (r : R) : r < 0 -> np_log2 r = NaN.
Proof.
  intros Hr. unfold np_log2.
  destruct (Rlt_dec 0 r); [lra |].
  destruct (Req_dec_T r 0); [lra | reflexivity].
Qed.

(** C5.  For every [x_i], [y_j] and [n], the partial mutual information of a
    zero joint count is the integer [0]: the function returns before any
    logarithm is taken, so the result does not depend on whether [log2] is
    defined at the other arguments. *)
Theorem partial_mi_zero_count (x_i y_j n : R) :
  calculate_partial_mutual_information 0 x_i y_j n = PyInt 0.
Proof.
  unfold calculate_partial_mutual_information.
  destruct (Req_dec_T 0 0) as [_ | H]; [reflexivity | now elim H].
Qed.

(** C2.  For every [n_ij <> 0] and positive [x_i], [y_j], [n], the partial
    mutual information is [n_ij * (log2 (n_ij * n) - log2 (x_i * y_j))],
    computed by one closed expression; for a positive joint count this is the
    real number [n_ij * (log2 n_ij + log2 n - log2 x_i - log2 y_j)]. *)
Theorem partial_mi_closed_form (n_ij x_i y_j n : R) :
  n_ij <> 0 -> 0 < x_i -> 0 < y_j -> 0 < n ->
  calculate_partial_mutual_information n_ij x_i y_j n
  = NpFloat64 (xmul (Fin n_ij)
                    (xsub (np_log2 (n_ij * n)) (np_log2 (x_i * y_j))))
  /\ (0 < n_ij ->
      calculate_partial_mutual_information n_ij x_i y_j n
      = NpFloat64 (Fin (n_ij * (log2 (n_ij * n) - log2 (x_i * y_j))))
      /\ n_ij * (log2 (n_ij * n) - log2 (x_i * y_j))
         = n_ij * (log2 n_ij + log2 n - log2 x_i - log2 y_j)).
Proof.
  intros Hne Hx Hy Hn. rewrite mi_nonzero by assumption.
  assert (Hxy : 0 < x_i * y_j) by now apply Rmult_lt_0_compat.
  rewrite (np_log2_pos x_i), (np_log2_pos y_j), (np_log2_pos n),
    (np_log2_pos (x_i * y_j)) by assumption.
  assert (Heq : forall m, 0 < m ->
            log2 (m * n) - log2 (x_i * y_j)
            = log2 m + log2 n - log2 x_i - log2 y_j).
  { intros m Hm. rewrite !log2_mult by assumption. ring. }
  split.
  - destruct (Rlt_le_dec 0 n_ij) as [Hpos | Hle].
    + assert (Hmn : 0 < n_ij * n) by now apply Rmult_lt_0_compat.
      rewrite (np_log2_pos n_ij), (np_log2_pos (n_ij * n)) by assumption.
      simpl. do 3 f_equal. rewrite !log2_mult by assumption. ring.
    + assert (Hneg : n_ij < 0) by lra.
      assert (Hmn : n_ij * n < 0) by nra.
      rewrite (np_log2_neg n_ij), (np_log2_neg (n_ij * n)) by assumption.
      reflexivity.
  - intros Hpos.
    assert (Hmn : 0 < n_ij * n) by now apply Rmult_lt_0_compat.
    rewrite (np_log2_pos n_ij) by assumption.
    split.
    + simpl. do 3 f_equal. rewrite !log2_mult by assumption. ring.
    + f_equal. now apply Heq.
Qed.

Lemma partial_mi_closed_form_witness :
  (1 <> 0 /\ 0 < 2 /\ 0 < 3 /\ 0 < 6)
  /\ calculate_partial_mutual_information 1 2 3 6
     = NpFloat64 (xmul (Fin 1) (xsub (np_log2 (1 * 6)) (np_log2 (2 * 3)))).
Proof.
  split; [lra |].
  apply (partial_mi_closed_form 1 2 3 6); lra.
Defined.

(** ** The sequence the generator yields *)

Lemma pmf_start_alt (n x_i y_j : R) :
  pmf_start n x_i y_j = py_int (Rmax 0 (x_i + y_j - n)).
Proof.
  unfold pmf_start. do 2 f_equal. ring.
Qed.

Lemma Rmax_IZR (a b : Z) : Rmax (IZR a) (IZR b) = IZR (Z.max a b).
Proof.
  destruct (Z_le_gt_dec a b) as [H | H].
  - rewrite Z.max_r, Rmax_right by (try apply IZR_le; lia). reflexivity.
  - rewrite Z.max_l, Rmax_left by (try apply IZR_le; lia). reflexivity.
Qed.

Lemma Rmin_IZR (a b : Z) : Rmin (IZR a) (IZR b) = IZR (Z.min a b).
Proof.
  destruct (Z_le_gt_dec a b) as [H | H].
  - rewrite Z.min_l, Rmin_left by (try apply IZR_le; lia). reflexivity.
  - rewrite Z.min_r, Rmin_right by (try apply IZR_le; lia). reflexivity.
Qed.

(** With integral counts, truncation does nothing. *)
Lemma pmf_bounds_integral (n x_i y_j : Z) :
  pmf_start (IZR n) (IZR x_i) (IZR y_j) = Z.max 0 (x_i + y_j - n)
  /\ pmf_end (IZR n) (IZR x_i) (IZR y_j) = Z.min x_i y_j.
Proof.
  split.
  - rewrite pmf_start_alt.
    rewrite <- plus_IZR, <- minus_IZR, Rmax_IZR. apply py_int_IZR.
  - unfold pmf_end. rewrite Rmin_IZR. apply py_int_IZR.
Qed.

(** ** Arguments computed without rounding *)

Ltac exact_args_by zn zx zy :=
  split; [lia | exists zn, zx, zy; repeat split; try lia; unfold pow; lra].

Lemma pow2_IZR (s : nat) : 2 ^ s = IZR (2 ^ Z.of_nat s).
Proof. apply (pow_IZR 2 s). Qed.

Lemma pow2_bounds (s : nat) :
  (s <= 50)%nat -> (0 < 2 ^ Z.of_nat s <= 2 ^ 50)%Z.
Proof.
  intros Hs. split.
  - apply Z.pow_pos_nonneg; lia.
  - apply Z.pow_le_mono_r; lia.
Qed.

(** A multiple of [2^-s] with a numerator below [2^53] is a double. *)
Lemma grid_binary64 (s : nat) (m : Z) :
  (s <= 50)%nat -> (Z.abs m < 2 ^ 53)%Z -> binary64 (IZR m / 2 ^ s).
Proof.
  intros Hs Hm. exists m, (- Z.of_nat s)%Z.
  split; [exact Hm |]. split; [lia |].
  rewrite powerRZ_neg', <- pow_powerRZ. reflexivity.
Qed.

(** On [exact_args] every operand of a truncation or of [math.lgamma], and
    every intermediate result on the way to it, is a double: the code's
    floating-point subtractions and additions return it unrounded. *)
Lemma exact_args_no_rounding (s : nat) (n x_i y_j : R) :
  exact_args s n x_i y_j -> Forall binary64 (pmf_operands n x_i y_j).
Proof.
  intros [Hs [zn [zx [zy [Hn [Hx [Hy [En [Ex Ey]]]]]]]]].
  destruct (pow2_bounds s Hs) as [HP0 HP1].
  assert (HPR : 2 ^ s = IZR (2 ^ Z.of_nat s)) by apply pow2_IZR.
  set (P := (2 ^ Z.of_nat s)%Z) in *.
  assert (HPpos : 0 < IZR P) by (apply IZR_lt; lia).
  destruct (pmf_start_bounds n x_i y_j) as [H0 [_ Hu]].
  set (st := pmf_start n x_i y_j) in *.
  assert (Hq : (0 <= st * P <= Z.max 0 (zx + zy - zn))%Z).
  { split; [apply Z.mul_nonneg_nonneg; lia |].
    apply le_IZR. rewrite mult_IZR, <- Rmax_IZR.
    assert (Hm : Rmax 0 (x_i + y_j - n) * IZR P
                 = Rmax (IZR 0) (IZR (zx + zy - zn))).
    { rewrite En, Ex, Ey, HPR, minus_IZR, plus_IZR.
      unfold Rmax.
      destruct (Rle_dec 0 (IZR zx / IZR P + IZR zy / IZR P - IZR zn / IZR P))
        as [Hle | Hgt];
        destruct (Rle_dec 0 (IZR zx + IZR zy - IZR zn)) as [Hle' | Hgt'].
      - field. lra.
      - exfalso. apply Hgt'.
        replace (IZR zx + IZR zy - IZR zn)
          with ((IZR zx / IZR P + IZR zy / IZR P - IZR zn / IZR P) * IZR P)
          by (field; lra).
        apply Rmult_le_pos; lra.
      - exfalso. apply Hgt.
        replace (IZR zx / IZR P + IZR zy / IZR P - IZR zn / IZR P)
          with ((IZR zx + IZR zy - IZR zn) * / IZR P) by (field; lra).
        apply Rmult_le_pos; [lra |].
        apply Rlt_le. now apply Rinv_0_lt_compat.
      - ring. }
    rewrite <- Hm. apply Rmult_le_compat_r; lra. }
  set (q := (st * P)%Z) in *.
  assert (Est : IZR st = IZR q / 2 ^ s).
  { unfold q. rewrite mult_IZR, HPR. field. lra. }
  assert (E1 : 1 = IZR P / 2 ^ s) by (rewrite HPR; field; lra).
  assert (Hgrid : forall (r : R) (m : Z),
             r = IZR m / 2 ^ s -> (Z.abs m < 2 ^ 53)%Z -> binary64 r).
  { intros r m -> Hm. now apply grid_binary64. }
  unfold pmf_operands. fold st.
  repeat apply Forall_cons; try apply Forall_nil.
  - apply (Hgrid _ (zn - zx)%Z); [| lia].
    rewrite En, Ex, minus_IZR. field. rewrite HPR. lra.
  - apply (Hgrid _ zx); [| lia].
    rewrite En, Ex. field. rewrite HPR. lra.
  - apply (Hgrid _ (zn - zy)%Z); [| lia].
    rewrite En, Ey, minus_IZR. field. rewrite HPR. lra.
  - apply (Hgrid _ (zx + zy - zn)%Z); [| lia].
    rewrite En, Ex, Ey, minus_IZR, plus_IZR. field. rewrite HPR. lra.
  - apply (Hgrid _ (zx + P)%Z); [| lia].
    rewrite E1 at 1. rewrite Ex, plus_IZR. field. rewrite HPR. lra.
  - apply (Hgrid _ (zy + P)%Z); [| lia].
    rewrite E1 at 1. rewrite Ey, plus_IZR. field. rewrite HPR. lra.
  - apply (Hgrid _ (zn - zx + P)%Z); [| lia].
    rewrite E1 at 1. rewrite En, Ex, plus_IZR, minus_IZR. field.
    rewrite HPR. lra.
  - apply (Hgrid _ (zn - zy + P)%Z); [| lia].
    rewrite E1 at 1. rewrite En, Ey, plus_IZR, minus_IZR. field.
    rewrite HPR. lra.
  - apply (Hgrid _ (zn + P)%Z); [| lia].
    rewrite E1 at 1. rewrite En, plus_IZR. field. rewrite HPR. lra.
  - apply (Hgrid _ q); [exact Est | lia].
  - apply (Hgrid _ (q + P)%Z); [| lia].
    rewrite E1 at 1. rewrite Est, plus_IZR. field. rewrite HPR. lra.
  - apply (Hgrid _ (zx - q)%Z); [| lia].
    rewrite Est, Ex, minus_IZR. field. rewrite HPR. lra.
  - apply (Hgrid _ (zx - q + P)%Z); [| lia].
    rewrite E1 at 1. rewrite Est, Ex, plus_IZR, minus_IZR. field.
    rewrite HPR. lra.
  - apply (Hgrid _ (zy - q)%Z); [| lia].
    rewrite Est, Ey, minus_IZR. field. rewrite HPR. lra.
  - apply (Hgrid _ (zy - q + P)%Z); [| lia].
    rewrite E1 at 1. rewrite Est, Ey, plus_IZR, minus_IZR. field.
    rewrite HPR. lra.
  - apply (Hgrid _ (zn - zx - zy)%Z); [| lia].
    rewrite En, Ex, Ey, !minus_IZR. field. rewrite HPR. lra.
  - apply (Hgrid _ (zn - zx - zy + q)%Z); [| lia].
    rewrite Est, En, Ex, Ey, plus_IZR, !minus_IZR. field. rewrite HPR. lra.
  - apply (Hgrid _ (zn - zx - zy + q + P)%Z); [| lia].
    rewrite E1 at 1. rewrite Est, En, Ex, Ey, !plus_IZR, !minus_IZR. field.
    rewrite HPR. lra.
Qed.

Lemma setup_hits_pole_args (n x_i y_j : R) :
  setup_hits_pole n x_i y_j = existsb is_pole (lgamma_args n x_i y_j).
Proof.
  unfold setup_hits_pole, lgamma_args. cbn [existsb].
  rewrite orb_false_r, !orb_assoc. reflexivity.
Qed.

Ltac in_operands := cbn [In]; repeat first [left; reflexivity | right].

Lemma exact_args_rounding_invisible (s : nat) (n x_i y_j : R) :
  exact_args s n x_i y_j -> rounding_invisible n x_i y_j.
Proof.
  intros Ha fl Hfl.
  assert (E : forall r, In r (pmf_operands n x_i y_j) -> fl r = r).
  { intros r Hr. apply Hfl.
    pose proof (exact_args_no_rounding s n x_i y_j Ha) as Hops.
    rewrite Forall_forall in Hops. now apply Hops. }
  unfold pmf_operands in E. cbv zeta in E.
  assert (Hs : pmf_start_fl fl n x_i y_j = pmf_start n x_i y_j).
  { unfold pmf_start_fl, pmf_start.
    rewrite (E (n - x_i)) by in_operands.
    rewrite (E (n - (n - x_i))) by in_operands.
    rewrite (E (n - y_j)) by in_operands.
    rewrite (E (n - (n - x_i) - (n - y_j))) by in_operands.
    reflexivity. }
  assert (Hl : lgamma_args_fl fl n x_i y_j = lgamma_args n x_i y_j).
  { unfold lgamma_args_fl, lgamma_args. rewrite Hs.
    set (start := IZR (pmf_start n x_i y_j)) in *.
    rewrite (E start) by in_operands.
    rewrite (E (n - x_i)) by in_operands.
    rewrite (E (n - y_j)) by in_operands.
    rewrite (E (x_i - start)) by in_operands.
    rewrite (E (y_j - start)) by in_operands.
    rewrite (E (n - x_i - y_j)) by in_operands.
    rewrite (E (n - x_i - y_j + start)) by in_operands.
    rewrite (E (x_i + 1)) by in_operands.
    rewrite (E (y_j + 1)) by in_operands.
    rewrite (E (n - x_i + 1)) by in_operands.
    rewrite (E (n - y_j + 1)) by in_operands.
    rewrite (E (n + 1)) by in_operands.
    rewrite (E (start + 1)) by in_operands.
    rewrite (E (x_i - start + 1)) by in_operands.
    rewrite (E (y_j - start + 1)) by in_operands.
    rewrite (E (n - x_i - y_j + start + 1)) by in_operands.
    reflexivity. }
  split; [exact Hs | exact Hl].
Qed.

(** In particular the test for a pole has the same outcome with rounding. *)
Lemma rounding_invisible_poles (fl : R -> R) (n x_i y_j : R) :
  rounding_invisible n x_i y_j ->
  (forall r, binary64 r -> fl r = r) ->
  existsb is_pole (lgamma_args_fl fl n x_i y_j) = setup_hits_pole n x_i y_j.
Proof.
  intros H Hfl. destruct (H fl Hfl) as [_ ->].
  symmetry. apply setup_hits_pole_args.
Qed.

(** ** The shape of the sequence *)

Lemma pmf_valid_shape (n x_i y_j : R) :
  0 <= x_i <= n -> 0 <= y_j <= n ->
  exists l,
    _hypergeometric_pmf n x_i y_j = Returns l
    /\ map fst l = pmf_support n x_i y_j
    /\ Z.of_nat (length l) = (pmf_end n x_i y_j - pmf_start n x_i y_j + 1)%Z.
Proof.
  intros Hx Hy. eexists. split; [now apply pmf_valid |].
  split.
  - rewrite map_map. cbn [fst]. apply map_id.
  - rewrite length_map. unfold pmf_support. rewrite py_range_length.
    pose proof (valid_start_le_end n x_i y_j Hx Hy). lia.
Qed.

Lemma py_int_between (r : R) (z : Z) :
  0 <= r -> IZR z <= r < IZR z + 1 -> py_int r = z.
Proof.
  intros Hr Hz. unfold py_int. destruct (Rle_dec 0 r); [| contradiction].
  symmetry. apply Int_part_spec. lra.
Qed.

(** C3 (as amended).  Let [n], [x_i] and [y_j] be computed without rounding
    ([exact_args]: integral counts, or weights on a dyadic grid; rounding then
    changes neither [start] nor an argument of [math.lgamma]), with
    [0 <= x_i <= n] and [0 <= y_j <= n].  The generator yields a finite
    sequence of [end - start + 1] pairs whose joint counts are exactly the
    integers of [[start, end]] in strictly increasing order, where
    [start = int (max (0, n - (n - x_i) - (n - y_j)))
           = int (max (0, x_i + y_j - n))] and [end = int (min (x_i, y_j))]
    are truncated toward zero; for integral arguments these are
    [max (0, x_i + y_j - n)] and [min (x_i, y_j)] themselves. *)
Theorem pmf_sequence_shape (s : nat) (n x_i y_j : R) :
  exact_args s n x_i y_j ->
  0 <= x_i <= n -> 0 <= y_j <= n ->
  let start := py_int (Rmax 0 (x_i + y_j - n)) in
  let stop := py_int (Rmin x_i y_j) in
  rounding_invisible n x_i y_j
  /\ pmf_start n x_i y_j = start
  /\ pmf_end n x_i y_j = stop
  /\ (start <= stop)%Z
  /\ (exists l,
        _hypergeometric_pmf n x_i y_j = Returns l
        /\ Z.of_nat (length l) = (stop - start + 1)%Z
        /\ map fst l = py_range start (stop + 1)
        /\ StronglySorted Z.lt (map fst l)
        /\ (forall k, In k (map fst l) <-> (start <= k <= stop)%Z))
  /\ (forall zn zx zy : Z,
        n = IZR zn -> x_i = IZR zx -> y_j = IZR zy ->
        start = Z.max 0 (zx + zy - zn) /\ stop = Z.min zx zy).
Proof.
  intros Ha Hx Hy start stop.
  assert (Hs : pmf_start n x_i y_j = start) by apply pmf_start_alt.
  assert (He : pmf_end n x_i y_j = stop) by reflexivity.
  split; [now apply exact_args_rounding_invisible with s |].
  split; [assumption |]. split; [assumption |].
  split; [rewrite <- Hs, <- He; now apply valid_start_le_end |].
  split.
  - destruct (pmf_valid_shape n x_i y_j Hx Hy) as [l [Hl [Hfst Hlen]]].
    exists l. rewrite Hfst, <- Hs, <- He.
    split; [assumption |]. split; [assumption |].
    split; [reflexivity |].
    split; [apply py_range_sorted |].
    intros k. unfold pmf_support. rewrite py_range_In. lia.
  - intros zn zx zy -> -> ->.
    rewrite <- Hs, <- He. apply pmf_bounds_integral.
Qed.

Lemma pmf_sequence_shape_witness :
  (exact_args 1 5 (5 / 2) (7 / 2) /\ 0 <= 5 / 2 <= 5 /\ 0 <= 7 / 2 <= 5)
  /\ exists l,
       _hypergeometric_pmf 5 (5 / 2) (7 / 2) = Returns l
       /\ Z.of_nat (length l) = 2%Z
       /\ map fst l = [1%Z; 2%Z].
Proof.
  assert (Ha : exact_args 1 5 (5 / 2) (7 / 2)) by exact_args_by 10%Z 5%Z 7%Z.
  assert (Hx : 0 <= 5 / 2 <= 5) by lra.
  assert (Hy : 0 <= 7 / 2 <= 5) by lra.
  assert (Hs : py_int (Rmax 0 (5 / 2 + 7 / 2 - 5)) = 1%Z).
  { rewrite Rmax_right by lra. apply py_int_between; lra. }
  assert (He : py_int (Rmin (5 / 2) (7 / 2)) = 2%Z).
  { rewrite Rmin_left by lra. apply py_int_between; lra. }
  split; [split; [exact Ha | split; [exact Hx | exact Hy]] |].
  pose proof (pmf_sequence_shape 1 5 (5 / 2) (7 / 2) Ha Hx Hy) as H.
  cbv zeta in H. rewrite Hs, He in H.
  destruct H as [_ [_ [_ [_ [[l [Hl [Hlen [Hfst _]]]] _]]]]].
  exists l. split; [exact Hl |]. split; [exact Hlen | exact Hfst].
Defined.

(** Counterexample to C3 as stated: with fractional weights the length of the
    sequence is not [min (x_i, y_j) - max (0, x_i + y_j - n) + 1]. *)
Lemma pmf_length_fractional :
  (0 <= 5 / 2 <= 5 /\ 0 <= 7 / 2 <= 5)
  /\ exists l,
       _hypergeometric_pmf 5 (5 / 2) (7 / 2) = Returns l
       /\ length l = 2%nat
       /\ INR (length l) <> Rmin (5 / 2) (7 / 2) - Rmax 0 (5 / 2 + 7 / 2 - 5) + 1.
Proof.
  split; [lra |].
  destruct (pmf_valid_shape 5 (5 / 2) (7 / 2)) as [l [Hl [_ Hlen]]]; [lra | lra |].
  assert (Hs : pmf_start 5 (5 / 2) (7 / 2) = 1%Z).
  { rewrite pmf_start_alt. rewrite Rmax_right by lra.
    apply py_int_between; lra. }
  assert (He : pmf_end 5 (5 / 2) (7 / 2) = 2%Z).
  { unfold pmf_end. rewrite Rmin_left by lra. apply py_int_between; lra. }
  rewrite Hs, He in Hlen.
  assert (Hlen2 : length l = 2%nat) by lia.
  exists l. split; [assumption |]. split; [assumption |].
  rewrite Hlen2, Rmin_left, Rmax_right by lra. simpl. lra.
Qed.



(** ** A constant first variable: [x_i = n] *)

Lemma support_singleton (s : Z) : py_range s (s + 1) = [s].
Proof.
  rewrite py_range_cons by lia. now rewrite py_range_nil by lia.
Qed.

Lemma constant_x_support (n y_j : R) :
  0 <= y_j <= n -> pmf_support n n y_j = [py_int y_j].
Proof.
  intros Hy. unfold pmf_support.
  assert (Hs : pmf_start n n y_j = py_int y_j).
  { unfold pmf_start. replace (n - (n - n) - (n - y_j)) with y_j by ring.
    now rewrite Rmax_right by lra. }
  assert (He : pmf_end n n y_j = py_int y_j).
  { unfold pmf_end. now rewrite Rmin_right by lra. }
  rewrite Hs, He. apply support_singleton.
Qed.

Lemma constant_x_integral (n y_j : R) :
  0 < n -> 0 < y_j <= n -> IZR (py_int y_j) = y_j ->
  hypergeometric_closed n n y_j (py_int y_j) = 1
  /\ calculate_partial_expected_mutual_information n n y_j
     = Returns (NpFloat64 (Fin 0)).
Proof.
  intros Hn Hy Hint.
  assert (Hp : hypergeometric_closed n n y_j (py_int y_j) = 1).
  { unfold hypergeometric_closed, log_numerator, log_denominator.
    rewrite Hint.
    replace (n - n) with 0 by ring.
    replace (y_j - y_j) with 0 by ring.
    replace (0 - y_j + y_j) with 0 by ring.
    rewrite logfact_0.
    replace (logfact n + logfact y_j + 0 + logfact (n - y_j)
             - (logfact n + logfact y_j + logfact (n - y_j) + 0 + 0))
      with 0 by ring.
    apply exp_0. }
  split; [assumption |].
  destruct (emi_value n n y_j) as [_ ->]; [lra | lra | lra |].
  rewrite constant_x_support by lra.
  unfold Rsum, fold_right, emi_code_term. rewrite Hp, Hint.
  do 3 f_equal. field.
Qed.

(** C6 (as amended).  On arguments computed without rounding ([exact_args];
    rounding then changes neither [start] nor an argument of [math.lgamma]),
    with [n > 0] and [0 < y_j <= n], when [x_i = n] the generator's support is
    the single joint count [int (y_j)]; when [y_j] is integral that count is
    [y_j], and in exact arithmetic its probability is [1] and the partial EMI
    is the single term [y_j * log2 (n * y_j / (n * y_j)) * 1], which is
    [0]. *)
Theorem emi_constant_marginal (s : nat) (n y_j : R) :
  exact_args s n n y_j ->
  0 < n -> 0 < y_j <= n ->
  rounding_invisible n n y_j
  /\ pmf_support n n y_j = [py_int y_j]
  /\ (IZR (py_int y_j) = y_j ->
      _hypergeometric_pmf n n y_j = Returns [(py_int y_j, Fin 1)]
      /\ calculate_partial_expected_mutual_information n n y_j
         = Returns (NpFloat64 (Fin (y_j * log2 (n * y_j / (n * y_j)) * 1)))
      /\ y_j * log2 (n * y_j / (n * y_j)) * 1 = 0).
Proof.
  intros Ha Hn Hy.
  split; [now apply exact_args_rounding_invisible with s |].
  split; [apply constant_x_support; lra |].
  intros Hint.
  destruct (constant_x_integral n y_j Hn Hy Hint) as [Hp Hemi].
  assert (Hz : y_j * log2 (n * y_j / (n * y_j)) * 1 = 0).
  { replace (n * y_j / (n * y_j)) with 1 by (field; lra).
    rewrite log2_1. ring. }
  split; [| split; [| assumption]].
  - rewrite pmf_valid, constant_x_support by lra. cbn [map]. now rewrite Hp.
  - now rewrite Hz.
Qed.

Lemma emi_constant_marginal_witness :
  (exact_args 0 2 2 1 /\ 0 < 2 /\ 0 < 1 <= 2)
  /\ _hypergeometric_pmf 2 2 1 = Returns [(1%Z, Fin 1)]
  /\ calculate_partial_expected_mutual_information 2 2 1
     = Returns (NpFloat64 (Fin (1 * log2 (2 * 1 / (2 * 1)) * 1))).
Proof.
  assert (Ha : exact_args 0 2 2 1) by exact_args_by 2%Z 2%Z 1%Z.
  assert (Hn : 0 < 2) by lra.
  assert (Hy : 0 < 1 <= 2) by lra.
  assert (Hi : py_int 1 = 1%Z) by apply (py_int_IZR 1).
  split; [split; [exact Ha | split; [exact Hn | exact Hy]] |].
  destruct (emi_constant_marginal 0 2 1 Ha Hn Hy) as [_ [_ H]].
  rewrite Hi in H. destruct (H eq_refl) as [Hp [He _]].
  split; assumption.
Defined.

Lemma logfact_half_chain :
  logfact (3 / 2) = logfact (- 1 / 2) + ln (1 / 2) + ln (3 / 2).
Proof.
  replace (3 / 2) with (1 / 2 + 1) at 1 by field.
  rewrite logfact_succ by lra.
  replace (1 / 2) with (- 1 / 2 + 1) at 1 by field.
  rewrite logfact_succ by lra.
  replace (- 1 / 2 + 1) with (1 / 2) by field.
  replace (1 / 2 + 1) with (3 / 2) by field.
  reflexivity.
Qed.

(** Counterexample to C6 as stated.  At [n = 2], [y_j = 1] the partial EMI is
    [0], not [y_j * log2 (n / y_j) * 1 = 1]; and at the fractional
    [y_j = 1/2] the single joint count is [0], not [y_j], with probability
    [3/8], not [1]. *)
Lemma emi_constant_marginal_counterexample :
  (calculate_partial_expected_mutual_information 2 2 1
   = Returns (NpFloat64 (Fin 0))
   /\ 1 * log2 (2 / 1) * 1 = 1)
  /\ _hypergeometric_pmf 2 2 (1 / 2) = Returns [(0%Z, Fin (3 / 8))].
Proof.
  split; [split |].
  - apply constant_x_integral; try lra.
    rewrite (py_int_IZR 1). reflexivity.
  - replace (2 / 1) with 2 by field. rewrite log2_2. ring.
  - rewrite pmf_valid, constant_x_support by lra.
    assert (Hi : py_int (1 / 2) = 0%Z) by (apply py_int_between; lra).
    rewrite Hi. cbn [map]. do 4 f_equal.
    unfold hypergeometric_closed, log_numerator, log_denominator.
    replace (2 - 2) with 0 by ring.
    replace (2 - 1 / 2) with (3 / 2) by field.
    replace (2 - 0) with 2 by ring.
    replace (1 / 2 - 0) with (1 / 2) by ring.
    replace (0 - 1 / 2 + 0) with (- 1 / 2) by field.
    rewrite logfact_0, logfact_2, logfact_half_chain.
    replace (ln 2 + logfact (1 / 2) + 0
             + (logfact (- 1 / 2) + ln (1 / 2) + ln (3 / 2))
             - (ln 2 + 0 + ln 2 + logfact (1 / 2) + logfact (- 1 / 2)))
      with (ln (1 / 2) + ln (3 / 2) - ln 2) by ring.
    unfold Rminus. rewrite !exp_plus, exp_Ropp, !exp_ln by lra. field.
Qed.

(** ** Exchanging the two marginals *)

Lemma pmf_start_sym (n x_i y_j : R) : pmf_start n x_i y_j = pmf_start n y_j x_i.
Proof. rewrite !pmf_start_alt. do 2 f_equal. ring. Qed.

Lemma pmf_end_sym (n x_i y_j : R) : pmf_end n x_i y_j = pmf_end n y_j x_i.
Proof. unfold pmf_end. now rewrite Rmin_comm. Qed.

Lemma pmf_support_sym (n x_i y_j : R) :
  pmf_support n x_i y_j = pmf_support n y_j x_i.
Proof.
  unfold pmf_support. now rewrite pmf_start_sym, pmf_end_sym.
Qed.

Lemma setup_hits_pole_sym (n x_i y_j : R) :
  setup_hits_pole n x_i y_j = setup_hits_pole n y_j x_i.
Proof.
  unfold setup_hits_pole. rewrite (pmf_start_sym n y_j x_i).
  replace (n - y_j - x_i + IZR (pmf_start n x_i y_j) + 1)
    with (n - x_i - y_j + IZR (pmf_start n x_i y_j) + 1) by ring.
  destruct (is_pole (x_i + 1)), (is_pole (y_j + 1)), (is_pole (n - x_i + 1)),
    (is_pole (n - y_j + 1)), (is_pole (n + 1)),
    (is_pole (IZR (pmf_start n x_i y_j) + 1)),
    (is_pole (x_i - IZR (pmf_start n x_i y_j) + 1)),
    (is_pole (y_j - IZR (pmf_start n x_i y_j) + 1));
    reflexivity.
Qed.

Lemma hypergeometric_closed_sym (n x_i y_j : R) (k : Z) :
  hypergeometric_closed n x_i y_j k = hypergeometric_closed n y_j x_i k.
Proof.
  unfold hypergeometric_closed, log_numerator, log_denominator.
  replace (n - y_j - x_i + IZR k) with (n - x_i - y_j + IZR k) by ring.
  f_equal. ring.
Qed.

Lemma pmf_sym (n x_i y_j : R) :
  _hypergeometric_pmf n x_i y_j = _hypergeometric_pmf n y_j x_i.
Proof.
  rewrite !pmf_cases, setup_hits_pole_sym, pmf_support_sym.
  destruct (setup_hits_pole n y_j x_i); [reflexivity |].
  f_equal. apply map_ext. intros k. now rewrite hypergeometric_closed_sym.
Qed.

Lemma emi_coefficient_sym (n x_i y_j : R) :
  emi_coefficient n x_i y_j = emi_coefficient n y_j x_i.
Proof. unfold emi_coefficient. now rewrite xopp_xsub_swap. Qed.

Lemma emi_sym (n x_i y_j : R) :
  calculate_partial_expected_mutual_information n x_i y_j
  = calculate_partial_expected_mutual_information n y_j x_i.
Proof.
  unfold calculate_partial_expected_mutual_information.
  now rewrite pmf_sym, emi_coefficient_sym.
Qed.

(** ** An empty range: [int (max (0, x_i + y_j - n)) > int (min (x_i, y_j))] *)

Lemma empty_support (n x_i y_j : R) :
  (pmf_end n x_i y_j < pmf_start n x_i y_j)%Z -> pmf_support n x_i y_j = [].
Proof. intros H. unfold pmf_support. apply py_range_nil. lia. Qed.

Lemma pmf_empty (n x_i y_j : R) :
  (pmf_end n x_i y_j < pmf_start n x_i y_j)%Z ->
  _hypergeometric_pmf n x_i y_j
  = if setup_hits_pole n x_i y_j then Raises ValueError else Returns [].
Proof.
  intros H. rewrite pmf_cases, empty_support by assumption. reflexivity.
Qed.

Lemma emi_empty (n x_i y_j : R) :
  (pmf_end n x_i y_j < pmf_start n x_i y_j)%Z ->
  calculate_partial_expected_mutual_information n x_i y_j
  = Raises (if setup_hits_pole n x_i y_j then ValueError
            else ZeroDivisionError).
Proof.
  intros H. unfold calculate_partial_expected_mutual_information.
  rewrite pmf_empty by assumption.
  destruct (setup_hits_pole n x_i y_j); [reflexivity |].
  cbn [bind fold_left fst snd py_truediv].
  destruct (Req_dec_T 0 0) as [_ | Hne]; [reflexivity | now elim Hne].
Qed.

(** With integral arguments an empty range always comes with a log-factorial
    of a negative integer. *)
Lemma integral_empty_hits_pole (zn zx zy : Z) :
  (pmf_end (IZR zn) (IZR zx) (IZR zy) < pmf_start (IZR zn) (IZR zx) (IZR zy))%Z ->
  setup_hits_pole (IZR zn) (IZR zx) (IZR zy) = true.
Proof.
  intros H. destruct (pmf_bounds_integral zn zx zy) as [Hs He].
  rewrite Hs, He in H. unfold setup_hits_pole.
  assert (Hcases : (zx + 1 <= 0 \/ zy + 1 <= 0
                    \/ zn - zx + 1 <= 0 \/ zn - zy + 1 <= 0)%Z) by lia.
  destruct Hcases as [Hc | [Hc | [Hc | Hc]]].
  - assert (Hp : is_pole (IZR zx + 1) = true).
    { rewrite <- (plus_IZR zx 1). now apply is_pole_IZR. }
    rewrite Hp. reflexivity.
  - assert (Hp : is_pole (IZR zy + 1) = true).
    { rewrite <- (plus_IZR zy 1). now apply is_pole_IZR. }
    rewrite Hp, ?orb_true_r. reflexivity.
  - assert (Hp : is_pole (IZR zn - IZR zx + 1) = true).
    { rewrite <- minus_IZR, <- (plus_IZR _ 1). now apply is_pole_IZR. }
    rewrite Hp, ?orb_true_r. reflexivity.
  - assert (Hp : is_pole (IZR zn - IZR zy + 1) = true).
    { rewrite <- minus_IZR, <- (plus_IZR _ 1). now apply is_pole_IZR. }
    rewrite Hp, ?orb_true_r. reflexivity.
Qed.

Lemma bounds_1_2_2 : pmf_start 1 2 2 = 3%Z /\ pmf_end 1 2 2 = 2%Z.
Proof. apply (pmf_bounds_integral 1 2 2). Qed.

Lemma bounds_fractional_empty :
  pmf_start (3 / 2) (9 / 4) (9 / 4) = 3%Z /\ pmf_end (3 / 2) (9 / 4) (9 / 4) = 2%Z.
Proof.
  split.
  - rewrite pmf_start_alt.
    replace (9 / 4 + 9 / 4 - 3 / 2) with 3 by field.
    rewrite Rmax_right by lra. apply (py_int_IZR 3).
  - unfold pmf_end. rewrite Rmin_left by lra. apply py_int_between; lra.
Qed.

Lemma no_pole_fractional_empty :
  setup_hits_pole (3 / 2) (9 / 4) (9 / 4) = false.
Proof.
  unfold setup_hits_pole. destruct bounds_fractional_empty as [-> _].
  rewrite !is_pole_pos by lra. reflexivity.
Qed.

(** C8 (as amended).  On arguments computed without rounding ([exact_args];
    rounding then changes neither [start] nor an argument of [math.lgamma])
    whose truncated bounds satisfy
    [int (max (0, x_i + y_j - n)) > int (min (x_i, y_j))], the generator
    yields no pair.  If one of the log-factorials computed before
    the loop falls on a negative integer, [math.lgamma] raises [ValueError]
    when the generator is first advanced, and with integral arguments this
    always happens; otherwise the generator produces the empty sequence, of
    total mass zero. *)
Theorem pmf_empty_range (s : nat) (n x_i y_j : R) :
  exact_args s n x_i y_j ->
  (py_int (Rmax 0 (x_i + y_j - n)) > py_int (Rmin x_i y_j))%Z ->
  rounding_invisible n x_i y_j
  /\ pmf_support n x_i y_j = []
  /\ (_hypergeometric_pmf n x_i y_j = Raises ValueError
      \/ (_hypergeometric_pmf n x_i y_j = Returns []
          /\ pmf_total_mass [] = Fin 0))
  /\ (setup_hits_pole n x_i y_j = true ->
      _hypergeometric_pmf n x_i y_j = Raises ValueError)
  /\ (setup_hits_pole n x_i y_j = false ->
      _hypergeometric_pmf n x_i y_j = Returns [])
  /\ (forall zn zx zy : Z,
        n = IZR zn -> x_i = IZR zx -> y_j = IZR zy ->
        setup_hits_pole n x_i y_j = true
        /\ _hypergeometric_pmf n x_i y_j = Raises ValueError).
Proof.
  intros Ha Hgt.
  assert (H : (pmf_end n x_i y_j < pmf_start n x_i y_j)%Z).
  { rewrite pmf_start_alt. unfold pmf_end. lia. }
  pose proof (pmf_empty n x_i y_j H) as Hpmf.
  split; [now apply exact_args_rounding_invisible with s |].
  split; [now apply empty_support |].
  split; [| split; [| split]].
  - destruct (setup_hits_pole n x_i y_j); [left | right; split]; auto.
  - intros Hp. now rewrite Hp in Hpmf.
  - intros Hp. now rewrite Hp in Hpmf.
  - intros zn zx zy -> -> ->.
    rewrite integral_empty_hits_pole in Hpmf |- * by exact H.
    split; [reflexivity | exact Hpmf].
Qed.

Lemma pmf_empty_range_witness :
  (exact_args 2 (3 / 2) (9 / 4) (9 / 4)
   /\ (py_int (Rmax 0 (9 / 4 + 9 / 4 - 3 / 2)) > py_int (Rmin (9 / 4) (9 / 4)))%Z)
  /\ _hypergeometric_pmf (3 / 2) (9 / 4) (9 / 4) = Returns [].
Proof.
  assert (Ha : exact_args 2 (3 / 2) (9 / 4) (9 / 4))
    by exact_args_by 6%Z 9%Z 9%Z.
  assert (H : (py_int (Rmax 0 (9 / 4 + 9 / 4 - 3 / 2))
               > py_int (Rmin (9 / 4) (9 / 4)))%Z).
  { destruct bounds_fractional_empty as [Hs He].
    rewrite pmf_start_alt in Hs. unfold pmf_end in He.
    rewrite Hs, He. reflexivity. }
  split; [split; [exact Ha | exact H] |].
  destruct (pmf_empty_range 2 (3 / 2) (9 / 4) (9 / 4) Ha H)
    as [_ [_ [_ [_ [Hr _]]]]].
  apply Hr, no_pole_fractional_empty.
Defined.

Lemma pmf_fractional_nonempty :
  Rmin (1 / 2) (1 / 2) < Rmax 0 (1 / 2 + 1 / 2 - 1 / 4)
  /\ _hypergeometric_pmf (1 / 4) (1 / 2) (1 / 2)
     = Returns [(0%Z, Fin (hypergeometric_closed (1 / 4) (1 / 2) (1 / 2) 0))].
Proof.
  split; [rewrite Rmin_left, Rmax_right by lra; lra |].
  assert (Hs : pmf_start (1 / 4) (1 / 2) (1 / 2) = 0%Z).
  { rewrite pmf_start_alt, Rmax_right by lra. apply py_int_between; lra. }
  assert (He : pmf_end (1 / 4) (1 / 2) (1 / 2) = 0%Z).
  { unfold pmf_end. rewrite Rmin_left by lra. apply py_int_between; lra. }
  rewrite pmf_cases. unfold setup_hits_pole, pmf_support. rewrite Hs, He.
  rewrite !is_pole_pos by lra. reflexivity.
Qed.

(** Counterexample to C8 as stated.  At [n = 1], [x_i = y_j = 2] the bounds
    are [start = 3 > 2 = end], yet the generator does not yield an empty
    sequence: advancing it raises [ValueError].  At [n = 1/4],
    [x_i = y_j = 1/2] the bounds are [start = 3/4 > 1/2 = end], yet both
    truncate to [0] and one pair is yielded. *)
Lemma pmf_empty_range_counterexample :
  (Rmin 2 2 < Rmax 0 (2 + 2 - 1)
   /\ _hypergeometric_pmf 1 2 2 = Raises ValueError
   /\ _hypergeometric_pmf 1 2 2 <> Returns [])
  /\ (Rmin (1 / 2) (1 / 2) < Rmax 0 (1 / 2 + 1 / 2 - 1 / 4)
      /\ _hypergeometric_pmf (1 / 4) (1 / 2) (1 / 2) <> Returns []).
Proof.
  assert (H : _hypergeometric_pmf 1 2 2 = Raises ValueError).
  { rewrite pmf_empty.
    - now rewrite (integral_empty_hits_pole 1 2 2)
        by (destruct bounds_1_2_2 as [-> ->]; reflexivity).
    - destruct bounds_1_2_2 as [-> ->]. reflexivity. }
  split.
  - split; [| split; [exact H | rewrite H; discriminate]].
    rewrite Rmin_left, Rmax_right by lra. lra.
  - destruct pmf_fractional_nonempty as [Hlt ->].
    split; [exact Hlt | discriminate].
Qed.

(** C10 (as amended).  On arguments computed without rounding ([exact_args];
    rounding then changes neither [start] nor an argument of [math.lgamma])
    whose truncated support is empty
    ([int (max (0, x_i + y_j - n)) > int (min (x_i, y_j))]),
    [calculate_partial_expected_mutual_information] returns no value.  If one
    of the log-factorials computed before the loop falls on a negative
    integer, [math.lgamma] raises [ValueError] when the loop first advances
    the generator, and this is always so for integral arguments; otherwise the
    loop contributes no term, both accumulators are still the float [0.0],
    and the final division raises [ZeroDivisionError]. *)
Theorem emi_empty_range_raises (s : nat) (n x_i y_j : R) :
  exact_args s n x_i y_j ->
  (py_int (Rmax 0 (x_i + y_j - n)) > py_int (Rmin x_i y_j))%Z ->
  rounding_invisible n x_i y_j
  /\ calculate_partial_expected_mutual_information n x_i y_j
     = Raises (if setup_hits_pole n x_i y_j then ValueError
               else ZeroDivisionError)
  /\ (forall v, calculate_partial_expected_mutual_information n x_i y_j
                <> Returns v)
  /\ (setup_hits_pole n x_i y_j = true ->
      _hypergeometric_pmf n x_i y_j = Raises ValueError
      /\ calculate_partial_expected_mutual_information n x_i y_j
         = Raises ValueError)
  /\ (setup_hits_pole n x_i y_j = false ->
      _hypergeometric_pmf n x_i y_j = Returns []
      /\ fold_left (emi_body (emi_coefficient n x_i y_j)) []
                   (PyFloat 0, PyFloat 0) = (PyFloat 0, PyFloat 0)
      /\ py_truediv (PyFloat 0) (PyFloat 0) = Raises ZeroDivisionError
      /\ calculate_partial_expected_mutual_information n x_i y_j
         = Raises ZeroDivisionError)
  /\ (forall zn zx zy : Z,
        n = IZR zn -> x_i = IZR zx -> y_j = IZR zy ->
        calculate_partial_expected_mutual_information n x_i y_j
        = Raises ValueError).
Proof.
  intros Ha Hgt.
  assert (H : (pmf_end n x_i y_j < pmf_start n x_i y_j)%Z).
  { rewrite pmf_start_alt. unfold pmf_end. lia. }
  pose proof (emi_empty n x_i y_j H) as Hemi.
  pose proof (pmf_empty n x_i y_j H) as Hpmf.
  split; [now apply exact_args_rounding_invisible with s |].
  split; [assumption |]. split; [| split; [| split]].
  - intros v. rewrite Hemi. discriminate.
  - intros Hp. rewrite Hp in Hemi, Hpmf. split; assumption.
  - intros Hp. rewrite Hp in Hemi, Hpmf.
    split; [assumption |]. split; [reflexivity |]. split; [| assumption].
    cbn [py_truediv]. destruct (Req_dec_T 0 0) as [_ | Hne];
      [reflexivity | now elim Hne].
  - intros zn zx zy -> -> ->.
    now rewrite integral_empty_hits_pole in Hemi.
Qed.

Lemma emi_empty_range_raises_witness :
  (exact_args 2 (3 / 2) (9 / 4) (9 / 4)
   /\ (py_int (Rmax 0 (9 / 4 + 9 / 4 - 3 / 2)) > py_int (Rmin (9 / 4) (9 / 4)))%Z)
  /\ calculate_partial_expected_mutual_information (3 / 2) (9 / 4) (9 / 4)
     = Raises ZeroDivisionError.
Proof.
  assert (Ha : exact_args 2 (3 / 2) (9 / 4) (9 / 4))
    by exact_args_by 6%Z 9%Z 9%Z.
  assert (H : (py_int (Rmax 0 (9 / 4 + 9 / 4 - 3 / 2))
               > py_int (Rmin (9 / 4) (9 / 4)))%Z).
  { destruct bounds_fractional_empty as [Hs He].
    rewrite pmf_start_alt in Hs. unfold pmf_end in He.
    rewrite Hs, He. reflexivity. }
  split; [split; [exact Ha | exact H] |].
  destruct (emi_empty_range_raises 2 (3 / 2) (9 / 4) (9 / 4) Ha H)
    as [_ [_ [_ [_ [Hr _]]]]].
  apply Hr, no_pole_fractional_empty.
Defined.

(** Counterexample to C10 as stated: at [n = 1], [x_i = y_j = 2] the truncated
    support is empty, but the exception is the [ValueError] of
    [math.lgamma 0], raised before the division is reached. *)
Lemma emi_empty_range_counterexample :
  (pmf_end 1 2 2 < pmf_start 1 2 2)%Z
  /\ calculate_partial_expected_mutual_information 1 2 2 = Raises ValueError
  /\ calculate_partial_expected_mutual_information 1 2 2
     <> Raises ZeroDivisionError.
Proof.
  assert (H : (pmf_end 1 2 2 < pmf_start 1 2 2)%Z).
  { destruct bounds_1_2_2 as [-> ->]. reflexivity. }
  assert (He : calculate_partial_expected_mutual_information 1 2 2
               = Raises ValueError).
  { rewrite emi_empty by exact H.
    now rewrite (integral_empty_hits_pole 1 2 2 H). }
  split; [exact H |]. split; [exact He |]. rewrite He. discriminate.
Qed.

(** ** The generator protocol

    Driving the generator with [next] until [StopIteration], as the [for]
    loop does, gives the outcome that the fold over the list of pairs
    gives. *)

Lemma emi_loop_deterministic (c : xreal) (g : gen_state) (pr sp : pynum)
  (r1 r2 : result pynum) :
  emi_loop c g pr sp r1 -> emi_loop c g pr sp r2 -> r1 = r2.
Proof.
  intros H1. revert r2.
  induction H1 as [g pr sp e Hg | g g' pr sp Hg | g g' item pr sp r Hg _ IH];
    intros r2 H2.
  - inversion H2 as [? ? ? e' Hg' | ? g'' ? ? Hg' | ? g'' item' ? ? ? Hg' _];
      subst; congruence.
  - inversion H2 as [? ? ? e' Hg' | ? g'' ? ? Hg' | ? g'' item' ? ? ? Hg' _];
      subst; congruence.
  - inversion H2 as [? ? ? e' Hg' | ? g'' ? ? Hg' | ? g'' item' ? ? ? Hg' Hrest];
      subst; try congruence.
    rewrite Hg in Hg'. injection Hg' as <- <-. now apply IH.
Qed.

Lemma emi_loop_from (c : xreal) (n x_i y_j numerator : R) (stop : Z) :
  forall (len : nat) (a : Z) (d : xreal) (pr sp : pynum) (g : gen_state),
    len = Z.to_nat (stop - a) ->
    gen_next g = Returns (gen_resume n x_i y_j numerator d a stop) ->
    emi_loop c g pr sp
      (py_truediv
         (fst (fold_left (emi_body c)
                 (pmf_loop n x_i y_j numerator (py_range a stop) d) (pr, sp)))
         (snd (fold_left (emi_body c)
                 (pmf_loop n x_i y_j numerator (py_range a stop) d) (pr, sp)))).
Proof.
  induction len as [| len IH]; intros a d pr sp g Hlen Hg.
  - rewrite py_range_nil by lia. cbn [pmf_loop fold_left fst snd].
    unfold gen_resume in Hg. destruct (Z_lt_dec a stop); [lia |].
    eapply emi_loop_stop. exact Hg.
  - rewrite py_range_cons by lia. cbn [pmf_loop fold_left].
    unfold gen_resume in Hg. destruct (Z_lt_dec a stop); [| lia].
    eapply emi_loop_item; [exact Hg |].
    rewrite (surjective_pairing (emi_body c (pr, sp) _)).
    cbn [fst snd]. rewrite <- surjective_pairing.
    rewrite (surjective_pairing (emi_body c (pr, sp) _)) at 1 2.
    apply IH; [lia | reflexivity].
Qed.

Lemma emi_eval_total (n x_i y_j : R) :
  emi_eval n x_i y_j (calculate_partial_expected_mutual_information n x_i y_j).
Proof.
  unfold emi_eval, calculate_partial_expected_mutual_information,
    _hypergeometric_pmf.
  destruct (pmf_setup n x_i y_j) as [[numerator denominator] | e] eqn:Hsetup.
  - cbn [bind fst snd].
    apply emi_loop_from
      with (len := Z.to_nat (pmf_end n x_i y_j + 1 - pmf_start n x_i y_j));
      [reflexivity |].
    cbn [gen_next]. rewrite Hsetup. reflexivity.
  - cbn [bind]. apply emi_loop_raise. cbn [gen_next]. now rewrite Hsetup.
Qed.

(** ** The docstring's formula and the value returned *)

Lemma Rsum_ext (f g : Z -> R) (ks : list Z) :
  (forall k, In k ks -> f k = g k) -> Rsum f ks = Rsum g ks.
Proof.
  induction ks as [| k ks IH]; intros H; [reflexivity |].
  simpl. rewrite (H k) by now left. rewrite IH; [reflexivity |].
  intros j Hj. apply H. now right.
Qed.

Lemma Rsum_scale (c : R) (f : Z -> R) (ks : list Z) :
  Rsum (fun k => c * f k) ks = c * Rsum f ks.
Proof.
  induction ks as [| k ks IH]; simpl; [ring | rewrite IH; ring].
Qed.

Lemma emi_code_term_scaled (n x_i y_j : R) (k : Z) :
  0 < n -> 0 < x_i -> 0 < y_j -> (0 <= k)%Z ->
  emi_code_term n x_i y_j k = n * emi_doc_term n x_i y_j k.
Proof.
  intros Hn Hx Hy Hk. unfold emi_code_term, emi_doc_term.
  destruct (Z.eq_dec k 0) as [-> | Hne].
  - unfold Rdiv. ring.
  - assert (Hkp : 0 < IZR k) by (apply IZR_lt; lia).
    rewrite log2_div, !log2_mult by (try apply Rmult_lt_0_compat; assumption).
    field. lra.
Qed.

(** On valid positive marginals the value returned is [n] times the
    docstring's sum, over the realised probability mass. *)
Lemma emi_is_n_times_doc (n x_i y_j : R) :
  0 < n -> 0 < x_i <= n -> 0 < y_j <= n ->
  calculate_partial_expected_mutual_information n x_i y_j
  = Returns (NpFloat64 (Fin
      (n * emi_doc n x_i y_j
       / Rsum (hypergeometric_closed n x_i y_j) (pmf_support n x_i y_j)))).
Proof.
  intros Hn Hx Hy. destruct (emi_value n x_i y_j Hn Hx Hy) as [_ ->].
  do 4 f_equal. unfold emi_doc. rewrite <- Rsum_scale.
  apply Rsum_ext. intros k Hk.
  apply emi_code_term_scaled; try lra. now apply support_nonneg with n x_i y_j.
Qed.

Lemma support_2_1_1 : pmf_support 2 1 1 = [0%Z; 1%Z].
Proof.
  unfold pmf_support. destruct (pmf_bounds_integral 2 1 1) as [-> ->].
  reflexivity.
Qed.

Lemma closed_2_1_1 (k : Z) :
  (k = 0 \/ k = 1)%Z -> hypergeometric_closed 2 1 1 k = 1 / 2.
Proof.
  intros Hk.
  assert (Hd : log_denominator 2 1 1 k = ln 2).
  { unfold log_denominator. destruct Hk as [-> | ->].
    - replace (1 - 0) with 1 by ring. replace (2 - 1 - 1 + 0) with 0 by ring.
      rewrite logfact_0, logfact_1, logfact_2. ring.
    - replace (1 - 1) with 0 by ring. replace (2 - 1 - 1 + 1) with 1 by ring.
      rewrite logfact_0, logfact_1, logfact_2. ring. }
  unfold hypergeometric_closed, log_numerator. rewrite Hd.
  replace (2 - 1) with 1 by ring. rewrite logfact_1.
  replace (0 + 0 + 0 + 0 - ln 2) with (- ln 2) by ring.
  rewrite exp_Ropp, exp_ln by lra. field.
Qed.

(** C1 (the code at a failing input).  At [n = 2], [x_i = y_j = 1] the
    hypergeometric probabilities are [1/2] and [1/2] and sum to [1]; the
    docstring's sum of [n_ij / n * log2 (n * n_ij / (x_i * y_j)) * p(n_ij)] is
    [1/4], but the function returns [1/2]: the factor [1 / n] is missing. *)
Theorem emi_omits_division_by_n :
  calculate_partial_expected_mutual_information 2 1 1
  = Returns (NpFloat64 (Fin (1 / 2)))
  /\ Rsum (hypergeometric_closed 2 1 1) (pmf_support 2 1 1) = 1
  /\ emi_doc 2 1 1 = 1 / 4.
Proof.
  assert (Hmass : Rsum (hypergeometric_closed 2 1 1) (pmf_support 2 1 1) = 1).
  { rewrite support_2_1_1. unfold Rsum, fold_right.
    rewrite !closed_2_1_1 by auto. field. }
  assert (Hdoc : emi_doc 2 1 1 = 1 / 4).
  { unfold emi_doc. rewrite support_2_1_1.
    unfold Rsum, fold_right, emi_doc_term.
    rewrite !closed_2_1_1 by auto.
    replace (2 * 1 / (1 * 1)) with 2 by field. rewrite log2_2. field. }
  split; [| split; assumption].
  rewrite emi_is_n_times_doc by lra. rewrite Hmass, Hdoc.
  do 3 f_equal. field.
Qed.

(** * Further properties of the four functions *)

(** ** [_logfactorial] *)

(** X1.  On a natural number [k], [_logfactorial] returns the natural
    logarithm of [k!], as its docstring says. *)
Theorem logfactorial_of_nat (k : nat) :
  _logfactorial (INR k) = Returns (ln (INR (fact k))).
Proof.
  rewrite _logfactorial_ok by (pose proof (pos_INR k); lra).
  now rewrite logfact_INR.
Qed.

(** X3.  The log-factorial recurrence, also for fractional weights: for
    [z > -1], [_logfactorial (z + 1)] returns what [_logfactorial z] returns
    plus [ln (z + 1)].  The loop of [_hypergeometric_pmf] relies on it. *)
Theorem logfactorial_recurrence (z : R) :
  -1 < z ->
  exists v : R,
    _logfactorial z = Returns v
    /\ _logfactorial (z + 1) = Returns (v + ln (z + 1)).
Proof.
  intros Hz. exists (logfact z). split.
  - now apply _logfactorial_ok.
  - rewrite _logfactorial_ok by lra. now rewrite logfact_succ.
Qed.

Lemma logfactorial_recurrence_witness :
  -1 < 1 / 2
  /\ exists v : R,
       _logfactorial (1 / 2) = Returns v
       /\ _logfactorial (1 / 2 + 1) = Returns (v + ln (1 / 2 + 1)).
Proof.
  assert (H : -1 < 1 / 2) by lra.
  split; [exact H |]. exact (logfactorial_recurrence (1 / 2) H).
Defined.

(** ** [_hypergeometric_pmf] on arbitrary arguments *)

Lemma py_range_nth_error (a b : Z) (i : nat) (k : Z) :
  nth_error (py_range a b) i = Some k -> k = (a + Z.of_nat i)%Z.
Proof.
  unfold py_range. rewrite nth_error_map.
  destruct (nth_error (seq 0 (Z.to_nat (b - a))) i) as [j |] eqn:Hj;
    [| discriminate].
  intros H. injection H as <-.
  assert (Hi : (i < length (seq 0 (Z.to_nat (b - a))))%nat)
    by (apply nth_error_Some; congruence).
  rewrite length_seq in Hi.
  rewrite nth_error_nth' with (d := O) in Hj by (rewrite length_seq; lia).
  rewrite seq_nth in Hj by lia. injection Hj as <-. reflexivity.
Qed.

Lemma pmf_returns_closed (n x_i y_j : R) (l : list (Z * xreal)) :
  _hypergeometric_pmf n x_i y_j = Returns l ->
  l = map (fun k => (k, Fin (hypergeometric_closed n x_i y_j k)))
          (pmf_support n x_i y_j).
Proof.
  rewrite pmf_cases. destruct (setup_hits_pole n x_i y_j); [discriminate |].
  intros H. now injection H as <-.
Qed.

Lemma pmf_returns_counts (n x_i y_j : R) (l : list (Z * xreal)) :
  _hypergeometric_pmf n x_i y_j = Returns l ->
  map fst l = pmf_support n x_i y_j.
Proof.
  intros H. rewrite (pmf_returns_closed _ _ _ _ H), map_map. apply map_id.
Qed.

(** X4.  Whatever the arguments, when the generator returns a sequence its
    joint counts are non-negative and strictly increasing, so a zero count
    can only be the first one: the [n_j != 0] test of the caller skips at most
    the first pair and [log2] is never taken at a count that is not
    positive. *)
Theorem pmf_counts_nonnegative (n x_i y_j : R) (l : list (Z * xreal)) :
  _hypergeometric_pmf n x_i y_j = Returns l ->
  StronglySorted Z.lt (map fst l)
  /\ Forall (fun k => (0 <= k)%Z) (map fst l)
  /\ (forall i, nth_error (map fst l) i = Some 0%Z -> i = 0%nat).
Proof.
  intros H. rewrite (pmf_returns_counts _ _ _ _ H).
  destruct (pmf_start_bounds n x_i y_j) as [H0 _].
  split; [apply py_range_sorted |]. split.
  - apply Forall_forall. intros k Hk. now apply support_nonneg with n x_i y_j.
  - intros i Hi. apply py_range_nth_error in Hi. lia.
Qed.

Lemma pmf_counts_nonnegative_witness :
  exists l,
    _hypergeometric_pmf 10 4 5 = Returns l
    /\ Forall (fun k => (0 <= k)%Z) (map fst l).
Proof.
  assert (H : _hypergeometric_pmf 10 4 5
              = Returns (map (fun k => (k, Fin (hypergeometric_closed 10 4 5 k)))
                             (pmf_support 10 4 5)))
    by (apply pmf_valid; lra).
  eexists. split; [exact H |].
  apply (pmf_counts_nonnegative 10 4 5 _ H).
Defined.

(** X5.  Whatever the arguments, every probability the generator yields is a
    finite, strictly positive real: no NaN and no infinity reaches the
    caller, although the update of [denominator] made just before the last
    [yield] may take the logarithm of zero. *)
Theorem pmf_probabilities_finite_positive (n x_i y_j : R)
  (l : list (Z * xreal)) :
  _hypergeometric_pmf n x_i y_j = Returns l ->
  Forall (fun item => exists p : R, snd item = Fin p /\ 0 < p) l.
Proof.
  intros H. rewrite (pmf_returns_closed _ _ _ _ H).
  apply Forall_forall. intros [k q] Hin.
  apply in_map_iff in Hin. destruct Hin as [k' [Heq _]].
  injection Heq as <- <-. cbn [snd]. eexists. split; [reflexivity |].
  apply exp_pos.
Qed.

Lemma pmf_probabilities_finite_positive_witness :
  exists l,
    _hypergeometric_pmf 10 4 5 = Returns l
    /\ Forall (fun item => exists p : R, snd item = Fin p /\ 0 < p) l.
Proof.
  assert (H : _hypergeometric_pmf 10 4 5
              = Returns (map (fun k => (k, Fin (hypergeometric_closed 10 4 5 k)))
                             (pmf_support 10 4 5)))
    by (apply pmf_valid; lra).
  eexists. split; [exact H |].
  apply (pmf_probabilities_finite_positive 10 4 5 _ H).
Defined.

Lemma hypergeometric_closed_succ (n x_i y_j : R) (k : Z) :
  (pmf_start n x_i y_j <= k < pmf_end n x_i y_j)%Z ->
  hypergeometric_closed n x_i y_j (k + 1)
  * ((IZR k + 1) * (n - x_i - y_j + IZR k + 1))
  = hypergeometric_closed n x_i y_j k * ((x_i - IZR k) * (y_j - IZR k)).
Proof.
  intros Hk.
  destruct (pmf_start_bounds n x_i y_j) as [H0 [Hl _]].
  destruct (pmf_end_bounds n x_i y_j k Hk) as [Hx Hy].
  assert (Hk0 : 0 <= IZR k) by (apply IZR_le; lia).
  assert (Hks : IZR (pmf_start n x_i y_j) <= IZR k) by (apply IZR_le; lia).
  assert (Hstep : Fin (log_denominator n x_i y_j (k + 1))
                  = xadd (Fin (log_denominator n x_i y_j k))
                         (denominator_step n x_i y_j k)).
  { symmetry. apply log_denominator_succ; lra. }
  unfold denominator_step in Hstep. rewrite !np_log_pos in Hstep by lra.
  cbn [xadd xsub xopp] in Hstep. injection Hstep as Hd.
  unfold hypergeometric_closed. rewrite Hd.
  set (A := log_numerator n x_i y_j - log_denominator n x_i y_j k).
  replace (log_numerator n x_i y_j
           - (log_denominator n x_i y_j k
              + (ln (IZR k + 1) + - ln (x_i - IZR k) + - ln (y_j - IZR k)
                 + ln (n - x_i - y_j + IZR k + 1))))
    with (A + (ln (x_i - IZR k) + ln (y_j - IZR k))
          + - (ln (IZR k + 1) + ln (n - x_i - y_j + IZR k + 1)))
    by (unfold A; ring).
  rewrite !exp_plus, exp_Ropp, !exp_plus, !exp_ln by lra.
  field. lra.
Qed.

(** X6.  Consecutive probabilities satisfy the hypergeometric ratio: if the
    pairs at positions [i] and [i + 1] are [(k, p)] and [(k', p')], then
    [k' = k + 1] and
    [p' * (k + 1) * (n - x_i - y_j + k + 1) = p * (x_i - k) * (y_j - k)]. *)
Theorem pmf_consecutive_ratio (n x_i y_j : R) (l : list (Z * xreal))
  (i : nat) (k k' : Z) (p p' : R) :
  _hypergeometric_pmf n x_i y_j = Returns l ->
  nth_error l i = Some (k, Fin p) ->
  nth_error l (S i) = Some (k', Fin p') ->
  k' = (k + 1)%Z
  /\ p' * ((IZR k + 1) * (n - x_i - y_j + IZR k + 1))
     = p * ((x_i - IZR k) * (y_j - IZR k)).
Proof.
  intros H Hi HSi. pose proof (pmf_returns_closed _ _ _ _ H) as Hl.
  rewrite Hl, nth_error_map in Hi, HSi.
  destruct (nth_error (pmf_support n x_i y_j) i) as [a |] eqn:Ha;
    [| discriminate].
  destruct (nth_error (pmf_support n x_i y_j) (S i)) as [b |] eqn:Hb;
    [| discriminate].
  cbn [option_map] in Hi, HSi.
  injection Hi as <- <-. injection HSi as <- <-.
  pose proof (nth_error_In _ _ Hb) as Hbin.
  unfold pmf_support in *. apply py_range_In in Hbin.
  apply py_range_nth_error in Ha, Hb.
  assert (Hba : b = (a + 1)%Z) by lia.
  split; [exact Hba |]. rewrite Hba.
  apply hypergeometric_closed_succ. lia.
Qed.

Lemma pmf_consecutive_ratio_witness :
  exists p p' : R,
    nth_error (map (fun k => (k, Fin (hypergeometric_closed 2 1 1 k)))
                   (pmf_support 2 1 1)) 0 = Some (0%Z, Fin p)
    /\ p' * ((0 + 1) * (2 - 1 - 1 + 0 + 1)) = p * ((1 - 0) * (1 - 0)).
Proof.
  assert (H : _hypergeometric_pmf 2 1 1
              = Returns (map (fun k => (k, Fin (hypergeometric_closed 2 1 1 k)))
                             (pmf_support 2 1 1)))
    by (apply pmf_valid; lra).
  assert (Hs : pmf_support 2 1 1 = [0%Z; 1%Z]) by apply support_2_1_1.
  exists (hypergeometric_closed 2 1 1 0), (hypergeometric_closed 2 1 1 1).
  split; [rewrite Hs; reflexivity |].
  apply (pmf_consecutive_ratio 2 1 1 _ 0 0 1 _ _ H); rewrite Hs; reflexivity.
Defined.

(** ** [calculate_partial_expected_mutual_information] on arbitrary arguments *)

Lemma emi_fold_snd_numpy (c : xreal) (l : list (Z * xreal)) :
  l <> [] ->
  forall acc, exists v, snd (fold_left (emi_body c) l acc) = NpFloat64 v.
Proof.
  induction l as [| item l IH]; intros Hne acc; [contradiction |].
  cbn [fold_left]. destruct l as [| item' l'].
  - cbn [fold_left]. destruct acc as [pr sp], item as [k p].
    cbn [emi_body snd]. unfold py_iadd. eauto.
  - apply IH. discriminate.
Qed.

Lemma py_truediv_numpy (a : pynum) (v : xreal) :
  py_truediv a (NpFloat64 v) = Returns (NpFloat64 (xdiv (to_xreal a) v)).
Proof. destruct a; reflexivity. Qed.

Lemma emi_outcome_cases (n x_i y_j : R) :
  (setup_hits_pole n x_i y_j = true
   /\ calculate_partial_expected_mutual_information n x_i y_j
      = Raises ValueError)
  \/ (setup_hits_pole n x_i y_j = false
      /\ (pmf_end n x_i y_j < pmf_start n x_i y_j)%Z
      /\ calculate_partial_expected_mutual_information n x_i y_j
         = Raises ZeroDivisionError)
  \/ (setup_hits_pole n x_i y_j = false
      /\ (pmf_start n x_i y_j <= pmf_end n x_i y_j)%Z
      /\ exists v, calculate_partial_expected_mutual_information n x_i y_j
                   = Returns (NpFloat64 v)).
Proof.
  destruct (setup_hits_pole n x_i y_j) eqn:Hp.
  - left. split; [reflexivity |].
    unfold calculate_partial_expected_mutual_information.
    now rewrite pmf_cases, Hp.
  - right.
    destruct (Z_lt_le_dec (pmf_end n x_i y_j) (pmf_start n x_i y_j))
      as [Hempty | Hne].
    + left. split; [reflexivity |]. split; [assumption |].
      now rewrite (emi_empty n x_i y_j Hempty), Hp.
    + right. split; [reflexivity |]. split; [assumption |].
      unfold calculate_partial_expected_mutual_information.
      rewrite pmf_cases, Hp. cbn [bind].
      assert (Hl : map (fun k => (k, Fin (hypergeometric_closed n x_i y_j k)))
                       (pmf_support n x_i y_j) <> []).
      { unfold pmf_support. rewrite py_range_cons by lia. discriminate. }
      destruct (emi_fold_snd_numpy (emi_coefficient n x_i y_j) _ Hl
                  (PyFloat 0, PyFloat 0)) as [v Hv].
      rewrite Hv, py_truediv_numpy. eauto.
Qed.

(** X10.  The outcome of the partial EMI on arguments computed without
    rounding ([exact_args]; rounding then changes neither [start] nor an
    argument of [math.lgamma]): [ValueError] exactly when one of the log-factorials computed
    before the loop falls on a negative integer; [ZeroDivisionError] exactly
    when none does and the range [start .. end] is empty; and in every other
    case a [numpy.float64] is returned, no exception being raised. *)
Theorem emi_outcome (s : nat) (n x_i y_j : R) :
  exact_args s n x_i y_j ->
  rounding_invisible n x_i y_j
  /\ (calculate_partial_expected_mutual_information n x_i y_j
      = Raises ValueError
      <-> setup_hits_pole n x_i y_j = true)
  /\ (calculate_partial_expected_mutual_information n x_i y_j
      = Raises ZeroDivisionError
      <-> setup_hits_pole n x_i y_j = false
          /\ (pmf_end n x_i y_j < pmf_start n x_i y_j)%Z)
  /\ ((exists v, calculate_partial_expected_mutual_information n x_i y_j
                 = Returns (NpFloat64 v))
      <-> setup_hits_pole n x_i y_j = false
          /\ (pmf_start n x_i y_j <= pmf_end n x_i y_j)%Z).
Proof.
  intros Ha.
  split; [now apply exact_args_rounding_invisible with s |].
  destruct (emi_outcome_cases n x_i y_j)
    as [[Hp He] | [[Hp [Hr He]] | [Hp [Hr [v He]]]]];
    rewrite He, Hp;
    (split; [| split]); (split; intros H);
    try congruence;
    try (destruct H; (congruence || lia));
    try (split; [reflexivity | assumption]).
  exists v. reflexivity.
Qed.

Lemma emi_outcome_witness :
  exact_args 0 1 2 2
  /\ calculate_partial_expected_mutual_information 1 2 2 = Raises ValueError.
Proof.
  assert (Ha : exact_args 0 1 2 2) by exact_args_by 1%Z 2%Z 2%Z.
  split; [exact Ha |].
  destruct (emi_outcome 0 1 2 2 Ha) as [_ [Hv _]].
  apply Hv. apply (integral_empty_hits_pole 1 2 2).
  destruct bounds_1_2_2 as [-> ->]. reflexivity.
Defined.

(** X12.  A zero marginal: for [0 <= y_j <= n] the partial EMI of
    [x_i = 0] is [0.0].  The coefficient is infinite or NaN there
    ([log2 0]), but the only joint count is [0], which the loop skips, and
    its probability is [1].  The same holds with the roles of the marginals
    exchanged. *)
Theorem emi_zero_marginal (n y_j : R) :
  0 <= y_j <= n ->
  _hypergeometric_pmf n 0 y_j = Returns [(0%Z, Fin 1)]
  /\ calculate_partial_expected_mutual_information n 0 y_j
     = Returns (NpFloat64 (Fin 0))
  /\ calculate_partial_expected_mutual_information n y_j 0
     = Returns (NpFloat64 (Fin 0)).
Proof.
  intros Hy.
  assert (Hs : pmf_support n 0 y_j = [0%Z]).
  { unfold pmf_support.
    assert (H1 : pmf_start n 0 y_j = 0%Z).
    { rewrite pmf_start_alt, Rmax_left by lra. apply (py_int_IZR 0). }
    assert (H2 : pmf_end n 0 y_j = 0%Z).
    { unfold pmf_end. rewrite Rmin_left by lra. apply (py_int_IZR 0). }
    rewrite H1, H2. reflexivity. }
  assert (Hp : hypergeometric_closed n 0 y_j 0 = 1).
  { unfold hypergeometric_closed, log_numerator, log_denominator.
    replace (n - 0) with n by ring.
    replace (0 - 0) with 0 by ring.
    replace (y_j - 0) with y_j by ring.
    replace (n - y_j + 0) with (n - y_j) by ring.
    rewrite logfact_0.
    replace (0 + logfact y_j + logfact n + logfact (n - y_j)
             - (logfact n + 0 + 0 + logfact y_j + logfact (n - y_j)))
      with 0 by ring.
    apply exp_0. }
  assert (Hpmf : _hypergeometric_pmf n 0 y_j = Returns [(0%Z, Fin 1)]).
  { rewrite pmf_valid, Hs by lra. cbn [map]. now rewrite Hp. }
  assert (Hemi : calculate_partial_expected_mutual_information n 0 y_j
                 = Returns (NpFloat64 (Fin 0))).
  { unfold calculate_partial_expected_mutual_information.
    rewrite Hpmf. cbn [bind fold_left emi_body fst snd].
    destruct (Z.eq_dec 0 0) as [_ | Hne]; [| now elim Hne].
    unfold py_iadd. cbn [to_xreal xadd]. rewrite py_truediv_numpy.
    cbn [to_xreal xdiv].
    destruct (Req_dec_T (0 + 1) 0) as [H0 | _]; [lra |].
    do 3 f_equal. field. }
  split; [assumption |]. split; [assumption |].
  now rewrite <- emi_sym.
Qed.

Lemma emi_zero_marginal_witness :
  0 <= 3 <= 10
  /\ calculate_partial_expected_mutual_information 10 0 3
     = Returns (NpFloat64 (Fin 0)).
Proof.
  assert (H : 0 <= 3 <= 10) by lra.
  split; [exact H |]. apply (emi_zero_marginal 10 3 H).
Defined.

(** X11.  The partial EMI is the mean of the partial mutual information under
    the probabilities the generator yields: on arguments computed without
    rounding ([exact_args]; rounding then changes neither [start] nor an
    argument of [math.lgamma]), with [n > 0], [0 < x_i <= n] and
    [0 < y_j <= n], it returns, in exact arithmetic,
    [sum_k MI(k, x_i, y_j, n) * p_k / sum_k p_k], where [MI] is
    [calculate_partial_mutual_information] and [k] runs over the joint counts
    of the generator. *)
Theorem emi_is_mean_of_mi (s : nat) (n x_i y_j : R) :
  exact_args s n x_i y_j ->
  0 < n -> 0 < x_i <= n -> 0 < y_j <= n ->
  rounding_invisible n x_i y_j
  /\ exists mi : Z -> R,
    (forall k, In k (pmf_support n x_i y_j) ->
       to_xreal (calculate_partial_mutual_information (IZR k) x_i y_j n)
       = Fin (mi k))
    /\ calculate_partial_expected_mutual_information n x_i y_j
       = Returns (NpFloat64 (Fin
           (Rsum (fun k => mi k * hypergeometric_closed n x_i y_j k)
                 (pmf_support n x_i y_j)
            / Rsum (hypergeometric_closed n x_i y_j)
                   (pmf_support n x_i y_j)))).
Proof.
  intros Ha Hn Hx Hy.
  split; [now apply exact_args_rounding_invisible with s |].
  exists (fun k => IZR k * (- log2 x_i - log2 y_j + log2 n + log2 (IZR k))).
  split.
  - intros k Hk. apply support_nonneg in Hk.
    unfold calculate_partial_mutual_information.
    destruct (Req_dec_T (IZR k) 0) as [H0 | Hne].
    + cbn [to_xreal]. rewrite H0. f_equal. ring.
    + assert (Hkp : 0 < IZR k).
      { assert (0 <= IZR k) by now apply IZR_le. lra. }
      rewrite !np_log2_pos by lra. cbn [to_xreal xadd xsub xopp xmul].
      f_equal. ring.
  - destruct (emi_value n x_i y_j Hn Hx Hy) as [_ ->]. reflexivity.
Qed.

Lemma emi_is_mean_of_mi_witness :
  (exact_args 0 10 4 5 /\ 0 < 10 /\ 0 < 4 <= 10 /\ 0 < 5 <= 10)
  /\ exists v,
       calculate_partial_expected_mutual_information 10 4 5
       = Returns (NpFloat64 (Fin v)).
Proof.
  assert (Ha : exact_args 0 10 4 5) by exact_args_by 10%Z 4%Z 5%Z.
  split; [split; [exact Ha | lra] |].
  destruct (emi_is_mean_of_mi 0 10 4 5 Ha) as [_ [mi [_ H]]];
    [lra | lra | lra |].
  eexists. exact H.
Defined.

(** ** [calculate_partial_mutual_information] *)

Lemma mi_positive_count (n_ij x_i y_j n : R) :
  0 < n_ij -> 0 < x_i -> 0 < y_j -> 0 < n ->
  calculate_partial_mutual_information n_ij x_i y_j n
  = NpFloat64 (Fin (n_ij * (log2 (n_ij * n) - log2 (x_i * y_j)))).
Proof.
  intros Hc Hx Hy Hn. rewrite mi_nonzero by lra.
  rewrite !np_log2_pos by assumption. cbn [xadd xsub xopp xmul].
  do 2 f_equal. rewrite !log2_mult by assumption. ring.
Qed.

Lemma partial_mi_zero_arg (x_i y_j n : R) :
  calculate_partial_mutual_information 0 x_i y_j n = PyInt 0.
Proof.
  unfold calculate_partial_mutual_information.
  destruct (Req_dec_T 0 0) as [_ | H]; [reflexivity | now elim H].
Qed.

(** X13.  The partial mutual information is symmetric in the two marginal
    frequencies, for all arguments. *)
Theorem partial_mi_symmetric (n_ij x_i y_j n : R) :
  calculate_partial_mutual_information n_ij x_i y_j n
  = calculate_partial_mutual_information n_ij y_j x_i n.
Proof.
  unfold calculate_partial_mutual_information.
  destruct (Req_dec_T n_ij 0); [reflexivity |].
  now rewrite (xadd_comm (np_log2 x_i)).
Qed.

(** X14.  The partial mutual information is homogeneous of degree one:
    multiplying all four counts by [c > 0] multiplies the result by [c]
    (weights may be rescaled without changing which cells score higher). *)
Theorem partial_mi_homogeneous (c n_ij x_i y_j n : R) :
  0 < c -> 0 <= n_ij -> 0 < x_i -> 0 < y_j -> 0 < n ->
  to_xreal (calculate_partial_mutual_information
              (c * n_ij) (c * x_i) (c * y_j) (c * n))
  = xmul (Fin c)
         (to_xreal (calculate_partial_mutual_information n_ij x_i y_j n)).
Proof.
  intros Hc Hij Hx Hy Hn.
  destruct (Req_dec_T n_ij 0) as [-> | Hne].
  - rewrite Rmult_0_r, !partial_mi_zero_arg. cbn [to_xreal xmul].
    f_equal. ring.
  - assert (Hpos : 0 < n_ij) by lra.
    rewrite !mi_positive_count by (try apply Rmult_lt_0_compat; assumption).
    cbn [to_xreal xmul]. f_equal.
    rewrite !log2_mult
      by (repeat apply Rmult_lt_0_compat; assumption).
    ring.
Qed.

Lemma partial_mi_homogeneous_witness :
  (0 < 3 /\ 0 <= 1 /\ 0 < 2 /\ 0 < 4 /\ 0 < 8)
  /\ to_xreal (calculate_partial_mutual_information
                 (3 * 1) (3 * 2) (3 * 4) (3 * 8))
     = xmul (Fin 3)
            (to_xreal (calculate_partial_mutual_information 1 2 4 8)).
Proof.
  split; [lra |]. apply (partial_mi_homogeneous 3 1 2 4 8); lra.
Defined.

(** X16.  No check guards the marginals: a positive joint count with a zero
    marginal frequency gives [+inf] (from [log2 0 = -inf]), and with a
    negative one gives NaN; no exception is raised. *)
Theorem partial_mi_degenerate_marginal (n_ij x_i y_j n : R) :
  0 < n_ij -> 0 < y_j -> 0 < n ->
  (x_i = 0 ->
   calculate_partial_mutual_information n_ij x_i y_j n = NpFloat64 PInf)
  /\ (x_i < 0 ->
      calculate_partial_mutual_information n_ij x_i y_j n = NpFloat64 NaN).
Proof.
  intros Hc Hy Hn. rewrite mi_nonzero by lra.
  rewrite (np_log2_pos n_ij), (np_log2_pos n), (np_log2_pos y_j) by assumption.
  split.
  - intros ->. unfold np_log2 at 1.
    destruct (Rlt_dec 0 0) as [H | _]; [lra |].
    destruct (Req_dec_T 0 0) as [_ | H]; [| now elim H].
    cbn [xadd xsub xopp xmul]. unfold inf_times.
    destruct (Rlt_dec 0 n_ij); [reflexivity | contradiction].
  - intros Hneg. rewrite (np_log2_neg x_i) by assumption. reflexivity.
Qed.

Lemma partial_mi_degenerate_marginal_witness :
  (0 < 1 /\ 0 < 2 /\ 0 < 3)
  /\ calculate_partial_mutual_information 1 0 2 3 = NpFloat64 PInf.
Proof.
  split; [lra |].
  apply (partial_mi_degenerate_marginal 1 0 2 3); lra.
Defined.

(** ** The probabilities for integral counts

    With natural numbers [x_i <= n] and [y_j <= n] the probabilities are the
    hypergeometric ones, [C(x_i, k) * C(n - x_i, y_j - k) / C(n, y_j)], and by
    Vandermonde's identity they sum to one. *)

Local Open Scope nat_scope.

(** Binomial coefficients by Pascal's rule. *)
Fixpoint binom (n k : nat) : nat :=
  match n, k with
  | _, O => 1
  | O, S _ => 0
  | S n', S k' => binom n' k' + binom n' (S k')
  end.

Lemma binom_0_r (n : nat) : binom n 0 = 1.
Proof. destruct n; reflexivity. Qed.

Lemma binom_gt (n : nat) : forall k, n < k -> binom n k = 0.
Proof.
  induction n as [| n IH]; intros k Hk.
  - destruct k; [lia | reflexivity].
  - destruct k as [| k]; [lia |]. simpl. rewrite !IH by lia. reflexivity.
Qed.

Lemma binom_diag (n : nat) : binom n n = 1.
Proof.
  induction n as [| n IH]; [reflexivity |].
  cbn [binom]. rewrite IH, binom_gt by lia. reflexivity.
Qed.

Lemma binom_fact (n : nat) :
  forall k, k <= n -> binom n k * (fact k * fact (n - k)) = fact n.
Proof.
  induction n as [| n IH]; intros k Hk.
  - replace k with 0 by lia. reflexivity.
  - destruct k as [| k].
    + rewrite binom_0_r, Nat.sub_0_r. change (fact 0) with 1. lia.
    + destruct (Nat.eq_dec k n) as [-> | Hne].
      * rewrite binom_diag, Nat.sub_diag. change (fact 0) with 1. lia.
      * cbn [binom].
        assert (H1 := IH k ltac:(lia)).
        assert (H2 := IH (S k) ltac:(lia)).
        assert (Hr : n - k = S (n - S k)) by lia.
        assert (Hs : S n - S k = S (n - S k)) by lia.
        rewrite Hr in H1. rewrite Hs.
        assert (E1 : fact (S k) = S k * fact k) by reflexivity.
        assert (E2 : fact (S (n - S k)) = S (n - S k) * fact (n - S k))
          by reflexivity.
        assert (E3 : fact (S n) = S n * fact n) by reflexivity.
        rewrite E1 in H2 |- *. rewrite E2 in H1 |- *. rewrite E3.
        set (A := binom n k) in *. set (B := binom n (S k)) in *.
        set (fk := fact k) in *. set (fr := fact (n - S k)) in *.
        set (r := n - S k) in *. set (F := fact n) in *.
        transitivity (S k * (A * (fk * (S r * fr)))
                      + S r * (B * (S k * fk * fr))); [ring |].
        rewrite H1, H2. replace (S n) with (S k + S r) by lia. ring.
Qed.

(** Sum of [f 0 .. f m]. *)
Fixpoint nsum (f : nat -> nat) (m : nat) : nat :=
  match m with
  | O => f 0
  | S m' => nsum f m' + f (S m')
  end.

Lemma nsum_ext (f g : nat -> nat) (m : nat) :
  (forall k, k <= m -> f k = g k) -> nsum f m = nsum g m.
Proof.
  induction m as [| m IH]; intros H; simpl.
  - apply H. lia.
  - rewrite IH, (H (S m)) by (intros; try apply H; lia). reflexivity.
Qed.

Lemma nsum_plus (f g : nat -> nat) (m : nat) :
  nsum (fun k => f k + g k) m = nsum f m + nsum g m.
Proof. induction m as [| m IH]; simpl; lia. Qed.

Lemma nsum_shift (f : nat -> nat) (m : nat) :
  nsum f (S m) = f 0 + nsum (fun k => f (S k)) m.
Proof.
  induction m as [| m IH]; [reflexivity |].
  change (nsum f (S (S m))) with (nsum f (S m) + f (S (S m))).
  rewrite IH. simpl. lia.
Qed.

Lemma vandermonde (a : nat) :
  forall b m, nsum (fun k => binom a k * binom b (m - k)) m = binom (a + b) m.
Proof.
  induction a as [| a IH]; intros b m.
  - simpl plus. destruct m as [| m]; [simpl; rewrite binom_0_r; reflexivity |].
    rewrite nsum_shift. rewrite binom_0_r, Nat.sub_0_r.
    rewrite (nsum_ext _ (fun _ => 0)); [| intros; reflexivity].
    assert (H0 : forall j, nsum (fun _ => 0) j = 0) by (induction j; simpl; lia).
    rewrite H0. lia.
  - destruct m as [| m].
    + simpl. rewrite !binom_0_r. reflexivity.
    + rewrite nsum_shift. rewrite binom_0_r, Nat.sub_0_r, Nat.mul_1_l.
      rewrite (nsum_ext _ (fun k => binom a k * binom b (m - k)
                                    + binom a (S k) * binom b (S m - S k))).
      2:{ intros k Hk. cbn [binom]. replace (S m - S k) with (m - k) by lia. lia. }
      rewrite nsum_plus, IH.
      assert (H : binom b (S m) + nsum (fun k => binom a (S k) * binom b (S m - S k)) m
                  = binom (a + b) (S m)).
      { rewrite <- IH, nsum_shift, binom_0_r, Nat.sub_0_r. lia. }
      change (S a + b) with (S (a + b)). cbn [binom]. lia.
Qed.

Local Open Scope R_scope.

Lemma nsum_seq (f : nat -> nat) (m : nat) :
  list_sum (map f (seq 0 (S m))) = nsum f m.
Proof.
  induction m as [| m IH]; [simpl; lia |].
  rewrite seq_S, map_app, list_sum_app, IH. simpl. lia.
Qed.

Lemma list_sum_zero (f : nat -> nat) (l : list nat) :
  (forall k, In k l -> f k = 0%nat) -> list_sum (map f l) = 0%nat.
Proof.
  induction l as [| k l IH]; intros H; [reflexivity |].
  simpl. rewrite (H k) by now left. rewrite IH; [reflexivity |].
  intros j Hj. apply H. now right.
Qed.

(** Vandermonde's identity restricted to the feasible joint counts. *)
Lemma vandermonde_support (n x y : nat) :
  (x <= n)%nat -> (y <= n)%nat ->
  list_sum (map (fun k => (binom x k * binom (n - x) (y - k))%nat)
                (seq (x + y - n) (S (Nat.min x y) - (x + y - n))))
  = binom n y.
Proof.
  intros Hx Hy.
  set (f := fun k => (binom x k * binom (n - x) (y - k))%nat).
  set (s := (x + y - n)%nat). set (e := Nat.min x y).
  assert (Hsplit : seq 0 (S y)
                   = seq 0 s ++ seq s (S e - s) ++ seq (S e) (y - e)).
  { replace (S y) with (s + ((S e - s) + (y - e)))%nat by (unfold s, e; lia).
    rewrite !seq_app. replace (0 + s)%nat with s by lia.
    replace (s + (S e - s))%nat with (S e) by (unfold s, e; lia).
    reflexivity. }
  assert (Hv : list_sum (map f (seq 0 (S y))) = binom n y).
  { rewrite nsum_seq. unfold f. rewrite vandermonde. f_equal. lia. }
  rewrite Hsplit, !map_app, !list_sum_app in Hv.
  rewrite (list_sum_zero f (seq 0 s)) in Hv.
  - rewrite (list_sum_zero f (seq (S e) (y - e))) in Hv; [lia |].
    intros k Hk. apply in_seq in Hk. unfold f.
    rewrite (binom_gt x k) by (unfold e in Hk; lia). reflexivity.
  - intros k Hk. apply in_seq in Hk. unfold f.
    rewrite (binom_gt (n - x) (y - k)) by (unfold s in Hk; lia). lia.
Qed.

Lemma INR_of_nat (k : nat) : IZR (Z.of_nat k) = INR k.
Proof. symmetry. apply INR_IZR_INZ. Qed.

Lemma integral_bounds (n x y : nat) :
  (x <= n)%nat -> (y <= n)%nat ->
  pmf_start (INR n) (INR x) (INR y) = Z.of_nat (x + y - n)
  /\ pmf_end (INR n) (INR x) (INR y) = Z.of_nat (Nat.min x y).
Proof.
  intros Hx Hy. rewrite <- !INR_of_nat.
  destruct (pmf_bounds_integral (Z.of_nat n) (Z.of_nat x) (Z.of_nat y))
    as [-> ->].
  split; lia.
Qed.

Lemma py_range_of_nat (s e : nat) :
  py_range (Z.of_nat s) (Z.of_nat e + 1) = map Z.of_nat (seq s (S e - s)).
Proof.
  unfold py_range.
  replace (Z.to_nat (Z.of_nat e + 1 - Z.of_nat s)) with (S e - s)%nat by lia.
  assert (H : forall len a,
            map (fun i => (Z.of_nat s + Z.of_nat i)%Z) (seq a len)
            = map Z.of_nat (seq (s + a) len)).
  { induction len as [| len IH]; intros a; [reflexivity |].
    cbn [seq map]. rewrite IH. f_equal; [lia |].
    replace (s + S a)%nat with (S (s + a)) by lia. reflexivity. }
  rewrite H. replace (s + 0)%nat with s by lia. reflexivity.
Qed.

Lemma integral_support (n x y : nat) :
  (x <= n)%nat -> (y <= n)%nat ->
  pmf_support (INR n) (INR x) (INR y)
  = map Z.of_nat (seq (x + y - n) (S (Nat.min x y) - (x + y - n))).
Proof.
  intros Hx Hy. unfold pmf_support.
  destruct (integral_bounds n x y Hx Hy) as [-> ->].
  apply py_range_of_nat.
Qed.

Lemma exp_logfact (k : nat) : exp (logfact (INR k)) = INR (fact k).
Proof. rewrite logfact_INR. apply exp_ln, INR_fact_lt_0. Qed.

(** The closed form at a feasible count is the ratio of binomials. *)
Lemma integral_closed_binom (n x y k : nat) :
  (x <= n)%nat -> (y <= n)%nat ->
  (x + y - n <= k)%nat -> (k <= Nat.min x y)%nat ->
  hypergeometric_closed (INR n) (INR x) (INR y) (Z.of_nat k)
  = INR (binom x k * binom (n - x) (y - k)) / INR (binom n y).
Proof.
  intros Hx Hy Hs He.
  unfold hypergeometric_closed, log_numerator, log_denominator.
  rewrite INR_of_nat.
  replace (INR n - INR x) with (INR (n - x)) by (rewrite minus_INR; [ring | lia]).
  replace (INR n - INR y) with (INR (n - y)) by (rewrite minus_INR; [ring | lia]).
  replace (INR x - INR k) with (INR (x - k)) by (rewrite minus_INR; [ring | lia]).
  replace (INR y - INR k) with (INR (y - k)) by (rewrite minus_INR; [ring | lia]).
  replace (INR (n - x) - INR y + INR k) with (INR ((n - x) - (y - k)))
    by (rewrite !minus_INR by lia; ring).
  set (r := ((n - x) - (y - k))%nat).
  replace (logfact (INR x) + logfact (INR y) + logfact (INR (n - x))
           + logfact (INR (n - y))
           - (logfact (INR n) + logfact (INR k) + logfact (INR (x - k))
              + logfact (INR (y - k)) + logfact (INR r)))
    with (logfact (INR x) + logfact (INR y) + logfact (INR (n - x))
          + logfact (INR (n - y))
          + - (logfact (INR n) + logfact (INR k) + logfact (INR (x - k))
               + logfact (INR (y - k)) + logfact (INR r)))
    by ring.
  rewrite exp_plus, exp_Ropp, !exp_plus, !exp_logfact.
  pose proof (binom_fact x k ltac:(lia)) as Bx.
  pose proof (binom_fact (n - x) (y - k) ltac:(lia)) as Bnx.
  pose proof (binom_fact n y Hy) as Bn.
  fold r in Bnx.
  apply (f_equal INR) in Bx, Bnx, Bn. rewrite !mult_INR in Bx, Bnx, Bn.
  rewrite mult_INR.
  pose proof (INR_fact_lt_0 n). pose proof (INR_fact_lt_0 y).
  pose proof (INR_fact_lt_0 (n - y)). pose proof (INR_fact_lt_0 k).
  pose proof (INR_fact_lt_0 (x - k)). pose proof (INR_fact_lt_0 (y - k)).
  pose proof (INR_fact_lt_0 r).
  assert (Hbn : INR (binom n y) <> 0).
  { intros Hzero. rewrite Hzero in Bn. lra. }
  rewrite <- Bx, <- Bnx, <- Bn. field.
  repeat split; try lra; assumption.
Qed.

Lemma Rsum_of_nat (p : Z -> R) (f : nat -> nat) (d : R) (l : list nat) :
  (forall k, In k l -> p (Z.of_nat k) = INR (f k) / d) ->
  Rsum p (map Z.of_nat l) = INR (list_sum (map f l)) / d.
Proof.
  induction l as [| k l IH]; intros H.
  - unfold Rsum. simpl. unfold Rdiv. ring.
  - cbn [map].
    change (Rsum p (Z.of_nat k :: map Z.of_nat l))
      with (p (Z.of_nat k) + Rsum p (map Z.of_nat l)).
    change (list_sum (f k :: map f l)) with (f k + list_sum (map f l))%nat.
    rewrite (H k) by now left.
    rewrite IH by (intros j Hj; apply H; now right).
    rewrite plus_INR. unfold Rdiv. ring.
Qed.

Lemma integral_mass_one (n x y : nat) :
  (x <= n)%nat -> (y <= n)%nat ->
  Rsum (hypergeometric_closed (INR n) (INR x) (INR y))
       (pmf_support (INR n) (INR x) (INR y)) = 1.
Proof.
  intros Hx Hy. rewrite integral_support by assumption.
  rewrite (Rsum_of_nat _ (fun k => (binom x k * binom (n - x) (y - k))%nat)
             (INR (binom n y))).
  - rewrite vandermonde_support by assumption.
    apply Rdiv_diag. pose proof (binom_fact n y Hy) as Bn.
    intros Hzero. change 0 with (INR 0) in Hzero.
    apply INR_eq in Hzero. rewrite Hzero in Bn.
    pose proof (fact_neq_0 n). simpl in Bn. lia.
  - intros k Hk. apply in_seq in Hk.
    apply integral_closed_binom; try assumption; lia.
Qed.

Lemma total_mass_closed (p : Z -> R) (ks : list Z) :
  forall a,
    fold_left (fun s item => xadd s (snd item))
              (map (fun k => (k, Fin (p k))) ks) (Fin a)
    = Fin (a + Rsum p ks).
Proof.
  induction ks as [| k ks IH]; intros a.
  - simpl. f_equal. ring.
  - cbn [map fold_left snd xadd]. rewrite IH. f_equal. simpl. ring.
Qed.

(** X7.  With natural numbers [x_i <= n] and [y_j <= n] the generator yields
    the hypergeometric probabilities
    [C(x_i, k) * C(n - x_i, y_j - k) / C(n, y_j)], and in exact arithmetic
    they sum to one. *)
Theorem pmf_integral_sums_to_one (n x y : nat) :
  (x <= n)%nat -> (y <= n)%nat ->
  exists l,
    _hypergeometric_pmf (INR n) (INR x) (INR y) = Returns l
    /\ pmf_total_mass l = Fin 1
    /\ Forall (fun item =>
                 exists k : nat,
                   fst item = Z.of_nat k
                   /\ snd item
                      = Fin (INR (binom x k * binom (n - x) (y - k))
                             / INR (binom n y))) l.
Proof.
  intros Hx Hy.
  assert (Hv : 0 <= INR x <= INR n /\ 0 <= INR y <= INR n).
  { repeat split; try apply pos_INR; now apply le_INR. }
  destruct Hv as [Hvx Hvy].
  eexists. split; [now apply pmf_valid |]. split.
  - unfold pmf_total_mass. rewrite total_mass_closed.
    rewrite integral_mass_one by assumption. f_equal. ring.
  - apply Forall_forall. intros [j q] Hin.
    apply in_map_iff in Hin. destruct Hin as [j' [Heq Hj]].
    injection Heq as <- <-.
    rewrite integral_support in Hj by assumption.
    apply in_map_iff in Hj. destruct Hj as [k [<- Hk]].
    apply in_seq in Hk. exists k. cbn [fst snd]. split; [reflexivity |].
    f_equal. apply integral_closed_binom; try assumption; lia.
Qed.

Lemma pmf_integral_sums_to_one_witness :
  ((4 <= 10)%nat /\ (5 <= 10)%nat)
  /\ exists l,
       _hypergeometric_pmf (INR 10) (INR 4) (INR 5) = Returns l
       /\ pmf_total_mass l = Fin 1.
Proof.
  split; [split; lia |].
  destruct (pmf_integral_sums_to_one 10 4 5) as [l [Hl [Hm _]]]; try lia.
  exists l. split; assumption.
Defined.

Lemma emi_integral_sum (n x y : nat) :
  (0 < x <= n)%nat -> (0 < y <= n)%nat ->
  calculate_partial_expected_mutual_information (INR n) (INR x) (INR y)
  = Returns (NpFloat64 (Fin
      (Rsum (emi_code_term (INR n) (INR x) (INR y))
            (pmf_support (INR n) (INR x) (INR y)))))
  /\ 0 < INR n.
Proof.
  intros Hx Hy.
  assert (Hn : 0 < INR n) by (apply lt_0_INR; lia).
  assert (Hvx : 0 < INR x <= INR n)
    by (split; [apply lt_0_INR | apply le_INR]; lia).
  assert (Hvy : 0 < INR y <= INR n)
    by (split; [apply lt_0_INR | apply le_INR]; lia).
  split; [| assumption].
  destruct (emi_value (INR n) (INR x) (INR y) Hn Hvx Hvy) as [_ ->].
  rewrite integral_mass_one by lia. do 3 f_equal. field.
Qed.

(** X17.  With natural numbers [0 < x_i <= n] and [0 < y_j <= n] the final
    division by [sum_probability] divides by one: in exact arithmetic the
    value returned is the plain sum
    [sum_k k * (log2 n - log2 x_i - log2 y_j + log2 k) * p_k] over the joint
    counts, which is [n] times the sum of
    [k / n * log2 (n * k / (x_i * y_j)) * p_k]. *)
Theorem emi_integral_unnormalised (n x y : nat) :
  (0 < x <= n)%nat -> (0 < y <= n)%nat ->
  calculate_partial_expected_mutual_information (INR n) (INR x) (INR y)
  = Returns (NpFloat64 (Fin
      (Rsum (emi_code_term (INR n) (INR x) (INR y))
            (pmf_support (INR n) (INR x) (INR y)))))
  /\ Rsum (emi_code_term (INR n) (INR x) (INR y))
          (pmf_support (INR n) (INR x) (INR y))
     = INR n * emi_doc (INR n) (INR x) (INR y).
Proof.
  intros Hx Hy.
  assert (Hn : 0 < INR n) by (apply lt_0_INR; lia).
  assert (Hvx : 0 < INR x <= INR n)
    by (split; [apply lt_0_INR | apply le_INR]; lia).
  assert (Hvy : 0 < INR y <= INR n)
    by (split; [apply lt_0_INR | apply le_INR]; lia).
  split.
  - destruct (emi_value (INR n) (INR x) (INR y) Hn Hvx Hvy) as [_ ->].
    rewrite integral_mass_one by lia. do 3 f_equal. field.
  - unfold emi_doc. rewrite <- Rsum_scale. apply Rsum_ext. intros k Hk.
    apply emi_code_term_scaled; try lra.
    now apply support_nonneg with (INR n) (INR x) (INR y).
Qed.

Lemma emi_integral_unnormalised_witness :
  ((0 < 4 <= 10)%nat /\ (0 < 5 <= 10)%nat)
  /\ calculate_partial_expected_mutual_information (INR 10) (INR 4) (INR 5)
     = Returns (NpFloat64 (Fin
         (Rsum (emi_code_term (INR 10) (INR 4) (INR 5))
               (pmf_support (INR 10) (INR 4) (INR 5))))).
Proof.
  split; [split; lia |].
  apply (emi_integral_unnormalised 10 4 5); lia.
Defined.

(** X18.  The loop is short: for non-negative marginals, whatever [n] is, a
    sequence the generator returns has at most [min (x_i, y_j) + 1] pairs. *)
Theorem pmf_length_bound (n x_i y_j : R) (l : list (Z * xreal)) :
  0 <= x_i -> 0 <= y_j ->
  _hypergeometric_pmf n x_i y_j = Returns l ->
  INR (length l) <= Rmin x_i y_j + 1.
Proof.
  intros Hx Hy H.
  assert (Hlen : length l = Z.to_nat (pmf_end n x_i y_j + 1 - pmf_start n x_i y_j)).
  { rewrite <- (length_map fst), (pmf_returns_counts _ _ _ _ H).
    apply py_range_length. }
  destruct (pmf_start_bounds n x_i y_j) as [H0 _].
  assert (Hm : 0 <= Rmin x_i y_j) by now apply Rmin_glb.
  destruct (py_int_nonneg _ Hm) as [He [Hle _]].
  fold (pmf_end n x_i y_j) in He, Hle.
  apply Rle_trans with (IZR (pmf_end n x_i y_j) + 1); [| lra].
  rewrite Hlen, INR_IZR_INZ, <- (plus_IZR _ 1). apply IZR_le. lia.
Qed.

Lemma pmf_length_bound_witness :
  (0 <= 4 /\ 0 <= 5)
  /\ exists l,
       _hypergeometric_pmf 10 4 5 = Returns l
       /\ INR (length l) <= Rmin 4 5 + 1.
Proof.
  assert (H : _hypergeometric_pmf 10 4 5
              = Returns (map (fun k => (k, Fin (hypergeometric_closed 10 4 5 k)))
                             (pmf_support 10 4 5)))
    by (apply pmf_valid; lra).
  split; [lra |]. eexists. split; [exact H |].
  apply (pmf_length_bound 10 4 5 _); [lra | lra | exact H].
Defined.

Lemma binom_1 (n : nat) : binom n 1 = n.
Proof.
  induction n as [| n IH]; [reflexivity |].
  cbn [binom]. rewrite binom_0_r, IH. reflexivity.
Qed.

(** X19.  A closed form when the second variable's value was seen once: for
    natural numbers [0 < x_i <= n], the partial EMI of [(n, x_i, 1)] is
    [x_i / n * (log2 n - log2 x_i)]. *)
Theorem emi_single_observation (n x : nat) :
  (0 < x <= n)%nat ->
  calculate_partial_expected_mutual_information (INR n) (INR x) 1
  = Returns (NpFloat64 (Fin
      (INR x / INR n * (log2 (INR n) - log2 (INR x))))).
Proof.
  intros Hx.
  assert (Hn : 0 < INR n) by (apply lt_0_INR; lia).
  assert (Hxp : 0 < INR x) by (apply lt_0_INR; lia).
  change 1 with (INR 1).
  destruct (emi_integral_sum n x 1) as [-> _]; [lia | lia |].
  rewrite integral_support by lia.
  assert (Hc1 : hypergeometric_closed (INR n) (INR x) (INR 1) (Z.of_nat 1)
                = INR x / INR n).
  { rewrite integral_closed_binom by lia.
    replace (1 - 1)%nat with 0%nat by lia.
    rewrite !binom_1, binom_0_r, Nat.mul_1_r. reflexivity. }
  assert (Hterm1 : emi_code_term (INR n) (INR x) (INR 1) (Z.of_nat 1)
                   = INR x / INR n * (log2 (INR n) - log2 (INR x))).
  { unfold emi_code_term. rewrite Hc1.
    change (IZR (Z.of_nat 1)) with 1. change (INR 1) with 1.
    rewrite log2_1. field. lra. }
  assert (Hterm0 : emi_code_term (INR n) (INR x) (INR 1) (Z.of_nat 0) = 0).
  { unfold emi_code_term. change (IZR (Z.of_nat 0)) with 0. ring. }
  do 3 f_equal.
  destruct (Nat.eq_dec x n) as [-> | Hne].
  - replace (n + 1 - n)%nat with 1%nat by lia.
    replace (Nat.min n 1) with 1%nat by lia.
    cbn [Nat.sub seq map]. unfold Rsum, fold_right.
    rewrite Hterm1. ring.
  - replace (x + 1 - n)%nat with 0%nat by lia.
    replace (Nat.min x 1) with 1%nat by lia.
    cbn [Nat.sub seq map]. unfold Rsum, fold_right.
    rewrite Hterm0, Hterm1. ring.
Qed.

Lemma emi_single_observation_witness :
  (0 < 4 <= 10)%nat
  /\ calculate_partial_expected_mutual_information (INR 10) (INR 4) 1
     = Returns (NpFloat64 (Fin
         (INR 4 / INR 10 * (log2 (INR 10) - log2 (INR 4))))).
Proof.
  assert (H : (0 < 4 <= 10)%nat) by lia.
  split; [exact H |]. exact (emi_single_observation 10 4 H).
Defined.
